(** * Five Words: the round lifecycle, poem tracker, rotation and scoring

    A shallow embedding of the server of the Five Words poetry game:
    the shared word generator (shared/wordGenerator.ts), the in-memory
    store [MemStorage] (server/storage.ts) and the request handlers of
    server/routes.ts, followed by the properties of the round state
    machine, of poem submission, of judge rotation and of scoring. *)

From Stdlib Require Import ZArith String List Bool Lia Permutation.
Import ListNotations.
Local Open Scope string_scope.
Local Open Scope list_scope.
Local Open Scope Z_scope.

(** ** JavaScript [Map] keyed by numeric ids

    A [Map] iterates in insertion order and [getPlayersByGame] relies on
    that order for the judge rotation, so a map is an association list in
    insertion order.  [set] overwrites the entry of a key that is present,
    in place, and appends a key that is absent. *)

Module JsMap.

Definition t (V : Type) : Type := list (Z * V).

Definition empty {V} : t V := [].

Definition get {V} (k : Z) (m : t V) : option V :=
  option_map snd (find (fun kv => fst kv =? k) m).

Definition has {V} (k : Z) (m : t V) : bool :=
  existsb (fun kv => fst kv =? k) m.

Definition set {V} (k : Z) (v : V) (m : t V) : t V :=
  if has k m
  then map (fun kv => if fst kv =? k then (k, v) else kv) m
  else m ++ [(k, v)].

(** [Array.from(m.values())] *)
Definition values {V} (m : t V) : list V := map snd m.

End JsMap.

(** ** The word pool (shared/wordGenerator.ts) *)

Definition poeticWords : list string :=
  [ (* Nature *)
    "ocean"; "mountain"; "forest"; "river"; "sky";
    "moon"; "star"; "sun"; "cloud"; "rain";
    "flower"; "tree"; "leaf"; "thunder"; "wind";
    "dawn"; "dusk"; "twilight"; "sunrise"; "sunset";
    (* Time *)
    "morning"; "evening"; "night"; "day"; "moment";
    "eternity"; "forever"; "instant"; "season"; "autumn";
    "winter"; "spring"; "summer"; "time"; "hour";
    "midnight"; "memory"; "yesterday"; "tomorrow"; "today";
    (* Emotions *)
    "love"; "hope"; "dream"; "joy"; "sorrow";
    "anger"; "peace"; "fear"; "wonder"; "desire";
    "passion"; "longing"; "grief"; "delight"; "despair";
    "courage"; "faith"; "trust"; "loneliness"; "serenity";
    (* Abstract *)
    "freedom"; "truth"; "beauty"; "silence"; "whisper";
    "shadow"; "light"; "darkness"; "echo"; "journey";
    "mirror"; "reflection"; "spirit"; "soul"; "destiny";
    "fate"; "wisdom"; "infinity"; "mystery"; "secret";
    (* Objects *)
    "feather"; "glass"; "stone"; "crystal"; "candle";
    "flame"; "door"; "window"; "bridge"; "path";
    "treasure"; "veil"; "key"; "crown"; "sword";
    "book"; "page"; "letter"; "portrait"; "melody";
    (* Descriptive *)
    "ancient"; "eternal"; "fragile"; "broken"; "golden";
    "silver"; "velvet"; "crimson"; "azure"; "emerald";
    "silent"; "hollow"; "sacred"; "wild"; "gentle";
    "fierce"; "luminous"; "hidden"; "forgotten"; "distant" ].

(** [a.splice(i, 1)]: the array without its element at index [i]; an index
    past the end removes nothing. *)
Definition splice1 {A} (i : nat) (l : list A) : list A :=
  firstn i l ++ skipn (S i) l.

(** The random source of one call of [generateRandomWords]:
    [randomIndex i n] is the value of
    [Math.floor(Math.random() * availableWords.length)] at iteration [i],
    when [n] words are available.  [Math.random()] lies in [0, 1), so the
    index lies below [n]; the properties below assume exactly that. *)
Definition RandomSource : Type := nat -> nat -> nat.

Definition in_range (randomIndex : RandomSource) : Prop :=
  forall i n, (0 < n)%nat -> (randomIndex i n < n)%nat.

(** The loop [for (let i = 0; i < count; i++)] with [todo] iterations left
    at index [i]. *)
Fixpoint drawLoop (randomIndex : RandomSource) (todo i : nat)
         (availableWords result : list string) : list string :=
  match todo with
  | O => result
  | S todo' =>
      match availableWords with
      | [] => result                                    (* break *)
      | _ =>
          let idx := randomIndex i (length availableWords) in
          let selectedWord := nth idx availableWords EmptyString in
          drawLoop randomIndex todo' (S i)
                   (splice1 idx availableWords) (result ++ [selectedWord])
      end
  end.

(** [generateRandomWords(count)] for an integer [count]; a count that is
    not positive runs no iteration. *)
Definition generateRandomWords (randomIndex : RandomSource) (count : Z)
  : list string :=
  drawLoop randomIndex (Z.to_nat count) 0 poeticWords [].

(** ** JavaScript strings and [String.prototype.trim]

    A poem's content is arbitrary user text, so it is a sequence of UTF-16
    code units.  [trim] strips the ECMAScript WhiteSpace and LineTerminator
    code points, all of which are single code units. *)

Definition JsString : Type := list Z.

Definition utf16 (s : string) : JsString :=
  map (fun c => Z.of_N (Ascii.N_of_ascii c)) (list_ascii_of_string s).

Definition isWhiteSpace (c : Z) : bool :=
  (c =? 9) || (c =? 10) || (c =? 11) || (c =? 12) || (c =? 13) ||
  (c =? 32) || (c =? 160) || (c =? 5760) ||
  ((8192 <=? c) && (c <=? 8202)) ||
  (c =? 8232) || (c =? 8233) || (c =? 8239) || (c =? 8287) ||
  (c =? 12288) || (c =? 65279).

Fixpoint trimStart (s : JsString) : JsString :=
  match s with
  | [] => []
  | c :: s' => if isWhiteSpace c then trimStart s' else s
  end.

Definition trimEnd (s : JsString) : JsString := rev (trimStart (rev s)).

Definition trim (s : JsString) : JsString := trimEnd (trimStart s).

(** Truthiness of a string: the empty string is the only falsy one. *)
Definition truthy (s : JsString) : bool :=
  match s with [] => false | _ => true end.

(** A string is blank when it holds white space only; the empty string is
    blank. *)
Definition blank (s : JsString) : Prop :=
  forall c, In c s -> isWhiteSpace c = true.

(** ** Data model (shared/schema.ts)

    Ids, counts and scores are JavaScript numbers holding integers; a
    timestamp is a [Date], kept as its milliseconds since the epoch. *)

Module RoundStatus.
Inductive t : Type := setup | writing | judging | completed.

Definition eqb (a b : t) : bool :=
  match a, b with
  | setup, setup | writing, writing | judging, judging
  | completed, completed => true
  | _, _ => false
  end.
End RoundStatus.

Module GameStatus.
Inductive t : Type := waiting | active | completed.
End GameStatus.

Module User.
Record t : Type := mk { id : Z; username : string; password : string }.
End User.

Module Game.
Record t : Type := mk {
  id : Z;
  name : string;
  createdBy : Z;
  currentRound : Z;
  totalRounds : Z;
  currentJudgeIndex : Z;
  status : GameStatus.t;
  createdAt : Z
}.
End Game.

Module Player.
Record t : Type := mk {
  id : Z;
  gameId : Z;
  userId : Z;
  score : Z;
  isHost : bool
}.
End Player.

Module Round.
Record t : Type := mk {
  id : Z;
  gameId : Z;
  roundNumber : Z;
  judgeId : Z;
  words : list string;
  status : RoundStatus.t;
  timeLimit : Z;
  endTime : option Z;
  winnerId : option Z
}.
End Round.

Module Poem.
Record t : Type := mk {
  id : Z;
  roundId : Z;
  playerId : Z;
  content : JsString;
  submitted : bool;
  submittedAt : option Z
}.
End Poem.

(** [RoundWithPoems] and [GameWithPlayers], the joined views sent back to
    the client. *)
Record RoundWithPoems : Type := mkRoundWithPoems {
  rwp_round : Round.t;
  rwp_poems : list Poem.t;
  rwp_judge : User.t
}.

Record GameWithPlayers : Type := mkGameWithPlayers {
  gwp_game : Game.t;
  gwp_players : list (Player.t * option User.t);
  gwp_currentRound : option RoundWithPoems
}.

(** The [Partial<Game>] objects the handlers pass to [updateGame]: an
    absent field keeps the game's value. *)
Record GameUpdates : Type := mkGameUpdates {
  upd_status : option GameStatus.t;
  upd_currentRound : option Z;
  upd_currentJudgeIndex : option Z
}.

(** ** The store (server/storage.ts, class [MemStorage])

    Five maps from id to record and a counter per map.  The class
    [DatabaseStorage] runs the same reads and row updates against the
    tables of the schema. *)

Record MemStorage : Type := mkMemStorage {
  users : JsMap.t User.t;
  games : JsMap.t Game.t;
  players : JsMap.t Player.t;
  rounds : JsMap.t Round.t;
  poems : JsMap.t Poem.t;
  userIdCounter : Z;
  gameIdCounter : Z;
  playerIdCounter : Z;
  roundIdCounter : Z;
  poemIdCounter : Z
}.

Definition with_users (m : JsMap.t User.t) (c : Z) (s : MemStorage) :=
  mkMemStorage m (games s) (players s) (rounds s) (poems s)
               c (gameIdCounter s) (playerIdCounter s) (roundIdCounter s)
               (poemIdCounter s).

Definition with_games (m : JsMap.t Game.t) (c : Z) (s : MemStorage) :=
  mkMemStorage (users s) m (players s) (rounds s) (poems s)
               (userIdCounter s) c (playerIdCounter s) (roundIdCounter s)
               (poemIdCounter s).

Definition with_players (m : JsMap.t Player.t) (c : Z) (s : MemStorage) :=
  mkMemStorage (users s) (games s) m (rounds s) (poems s)
               (userIdCounter s) (gameIdCounter s) c (roundIdCounter s)
               (poemIdCounter s).

Definition with_rounds (m : JsMap.t Round.t) (c : Z) (s : MemStorage) :=
  mkMemStorage (users s) (games s) (players s) m (poems s)
               (userIdCounter s) (gameIdCounter s) (playerIdCounter s) c
               (poemIdCounter s).

Definition with_poems (m : JsMap.t Poem.t) (c : Z) (s : MemStorage) :=
  mkMemStorage (users s) (games s) (players s) (rounds s) m
               (userIdCounter s) (gameIdCounter s) (playerIdCounter s)
               (roundIdCounter s) c.

(** *** User operations *)

Definition getUser (id : Z) (s : MemStorage) : option User.t :=
  JsMap.get id (users s).

Definition createUser (username password : string) (s : MemStorage)
  : MemStorage * User.t :=
  let id := userIdCounter s in
  let user := User.mk id username password in
  (with_users (JsMap.set id user (users s)) (id + 1) s, user).

(** *** Game operations *)

Definition createGame (now : Z) (name : string) (createdBy totalRounds : Z)
           (s : MemStorage) : MemStorage * Game.t :=
  let id := gameIdCounter s in
  let game := Game.mk id name createdBy 1 totalRounds 0 GameStatus.waiting now in
  (with_games (JsMap.set id game (games s)) (id + 1) s, game).

Definition getGame (id : Z) (s : MemStorage) : option Game.t :=
  JsMap.get id (games s).

Definition applyUpdates (game : Game.t) (updates : GameUpdates) : Game.t :=
  Game.mk (Game.id game) (Game.name game) (Game.createdBy game)
          (match upd_currentRound updates with
           | Some r => r | None => Game.currentRound game end)
          (Game.totalRounds game)
          (match upd_currentJudgeIndex updates with
           | Some i => i | None => Game.currentJudgeIndex game end)
          (match upd_status updates with
           | Some st => st | None => Game.status game end)
          (Game.createdAt game).

Definition updateGame (id : Z) (updates : GameUpdates) (s : MemStorage)
  : MemStorage * option Game.t :=
  match JsMap.get id (games s) with
  | None => (s, None)
  | Some game =>
      let updatedGame := applyUpdates game updates in
      (with_games (JsMap.set id updatedGame (games s)) (gameIdCounter s) s,
       Some updatedGame)
  end.

(** *** Player operations *)

Definition addPlayerToGame (gameId userId : Z) (isHost : bool)
           (s : MemStorage) : MemStorage * Player.t :=
  let id := playerIdCounter s in
  let player := Player.mk id gameId userId 0 (isHost || false) in
  (with_players (JsMap.set id player (players s)) (id + 1) s, player).

Definition getPlayersByGame (gameId : Z) (s : MemStorage) : list Player.t :=
  filter (fun player => Player.gameId player =? gameId)
         (JsMap.values (players s)).

Definition getPlayerScore (playerId : Z) (s : MemStorage) : Z :=
  match JsMap.get playerId (players s) with
  | Some player => Player.score player
  | None => 0
  end.

Definition updatePlayerScore (playerId scoreIncrement : Z) (s : MemStorage)
  : MemStorage * Z :=
  match JsMap.get playerId (players s) with
  | None => (s, 0)
  | Some player =>
      let updatedPlayer :=
        Player.mk (Player.id player) (Player.gameId player)
                  (Player.userId player)
                  (Player.score player + scoreIncrement)
                  (Player.isHost player) in
      (with_players (JsMap.set playerId updatedPlayer (players s))
                    (playerIdCounter s) s,
       Player.score updatedPlayer)
  end.

(** *** Round operations *)

Definition createRound (gameId roundNumber judgeId : Z) (words : list string)
           (timeLimit : Z) (s : MemStorage) : MemStorage * Round.t :=
  let id := roundIdCounter s in
  let round := Round.mk id gameId roundNumber judgeId words
                        RoundStatus.setup timeLimit None None in
  (with_rounds (JsMap.set id round (rounds s)) (id + 1) s, round).

Definition getRound (id : Z) (s : MemStorage) : option Round.t :=
  JsMap.get id (rounds s).

Definition updateRoundStatus (id : Z) (status : RoundStatus.t)
           (s : MemStorage) : MemStorage * option Round.t :=
  match JsMap.get id (rounds s) with
  | None => (s, None)
  | Some round =>
      let updatedRound :=
        Round.mk (Round.id round) (Round.gameId round)
                 (Round.roundNumber round) (Round.judgeId round)
                 (Round.words round) status (Round.timeLimit round)
                 (Round.endTime round) (Round.winnerId round) in
      (with_rounds (JsMap.set id updatedRound (rounds s)) (roundIdCounter s) s,
       Some updatedRound)
  end.

Definition setRoundWinner (id winnerId : Z) (s : MemStorage)
  : MemStorage * option Round.t :=
  match JsMap.get id (rounds s) with
  | None => (s, None)
  | Some round =>
      let updatedRound :=
        Round.mk (Round.id round) (Round.gameId round)
                 (Round.roundNumber round) (Round.judgeId round)
                 (Round.words round) RoundStatus.completed
                 (Round.timeLimit round) (Round.endTime round)
                 (Some winnerId) in
      (with_rounds (JsMap.set id updatedRound (rounds s)) (roundIdCounter s) s,
       Some updatedRound)
  end.

Definition updateRoundEndTime (id endTime : Z) (s : MemStorage)
  : MemStorage * option Round.t :=
  match JsMap.get id (rounds s) with
  | None => (s, None)
  | Some round =>
      let updatedRound :=
        Round.mk (Round.id round) (Round.gameId round)
                 (Round.roundNumber round) (Round.judgeId round)
                 (Round.words round) (Round.status round)
                 (Round.timeLimit round) (Some endTime)
                 (Round.winnerId round) in
      (with_rounds (JsMap.set id updatedRound (rounds s)) (roundIdCounter s) s,
       Some updatedRound)
  end.

Definition getCurrentRound (gameId : Z) (s : MemStorage) : option Round.t :=
  match JsMap.get gameId (games s) with
  | None => None
  | Some game =>
      find (fun round => (Round.gameId round =? gameId) &&
                         (Round.roundNumber round =? Game.currentRound game))
           (JsMap.values (rounds s))
  end.

(** *** Poem operations *)

Definition createPoem (roundId playerId : Z) (content : JsString)
           (s : MemStorage) : MemStorage * Poem.t :=
  let id := poemIdCounter s in
  let poem := Poem.mk id roundId playerId content false None in
  (with_poems (JsMap.set id poem (poems s)) (id + 1) s, poem).

Definition updatePoem (id : Z) (content : JsString) (s : MemStorage)
  : MemStorage * option Poem.t :=
  match JsMap.get id (poems s) with
  | None => (s, None)
  | Some poem =>
      let updatedPoem :=
        Poem.mk (Poem.id poem) (Poem.roundId poem) (Poem.playerId poem)
                content (Poem.submitted poem) (Poem.submittedAt poem) in
      (with_poems (JsMap.set id updatedPoem (poems s)) (poemIdCounter s) s,
       Some updatedPoem)
  end.

Definition submitPoem (now : Z) (id : Z) (s : MemStorage)
  : MemStorage * option Poem.t :=
  match JsMap.get id (poems s) with
  | None => (s, None)
  | Some poem =>
      let updatedPoem :=
        Poem.mk (Poem.id poem) (Poem.roundId poem) (Poem.playerId poem)
                (Poem.content poem) true (Some now) in
      (with_poems (JsMap.set id updatedPoem (poems s)) (poemIdCounter s) s,
       Some updatedPoem)
  end.

Definition getPoemsByRound (roundId : Z) (s : MemStorage) : list Poem.t :=
  filter (fun poem => Poem.roundId poem =? roundId)
         (JsMap.values (poems s)).

Definition getPoem (id : Z) (s : MemStorage) : option Poem.t :=
  JsMap.get id (poems s).

(** *** Joined views *)

Definition getRoundWithPoems (id : Z) (s : MemStorage)
  : option RoundWithPoems :=
  match JsMap.get id (rounds s) with
  | None => None
  | Some round =>
      let poems := getPoemsByRound id s in
      match getUser (Round.judgeId round) s with
      | None => None
      | Some judge => Some (mkRoundWithPoems round poems judge)
      end
  end.

Definition getGameWithPlayers (id : Z) (s : MemStorage)
  : option GameWithPlayers :=
  match JsMap.get id (games s) with
  | None => None
  | Some game =>
      let playersList :=
        filter (fun player => Player.gameId player =? id)
               (JsMap.values (players s)) in
      let playersWithUsers :=
        map (fun player => (player, getUser (Player.userId player) s))
            playersList in
      let roundWithPoems :=
        match getCurrentRound id s with
        | None => None
        | Some currentRound =>
            let poems := getPoemsByRound (Round.id currentRound) s in
            match getUser (Round.judgeId currentRound) s with
            | None => None
            | Some judge => Some (mkRoundWithPoems currentRound poems judge)
            end
        end in
      Some (mkGameWithPlayers game playersWithUsers roundWithPoems)
  end.

(** The constructor: empty maps, counters at 1, five test users. *)
Definition emptyStorage : MemStorage :=
  mkMemStorage JsMap.empty JsMap.empty JsMap.empty JsMap.empty JsMap.empty
               1 1 1 1 1.

Definition newMemStorage : MemStorage :=
  let s := fst (createUser "John" "password" emptyStorage) in
  let s := fst (createUser "Emma" "password" s) in
  let s := fst (createUser "Robert" "password" s) in
  let s := fst (createUser "Sarah" "password" s) in
  fst (createUser "Michael" "password" s).

(** ** Request handlers (server/routes.ts)

    A handler runs against the store and either replies early
    ([return res.status(..).json(..)]) or goes on with a value.  Store
    updates made before an early reply stay in place. *)

Inductive Body : Type :=
| Message (message : string)
| GameBody (game : option GameWithPlayers)
| RoundBody (round : option RoundWithPoems)
| PoemBody (poem : option Poem.t).

Record Response : Type := mkResponse { statusCode : Z; body : Body }.

Definition Route (A : Type) : Type :=
  MemStorage -> MemStorage * (Response + A).

Definition ret {A} (a : A) : Route A := fun s => (s, inr a).

Definition bind {A B} (m : Route A) (k : A -> Route B) : Route B :=
  fun s =>
    match snd (m s) with
    | inl response => (fst (m s), inl response)
    | inr a => k a (fst (m s))
    end.

(** [return res.status(code).json(body)] *)
Definition reply {A} (code : Z) (b : Body) : Route A :=
  fun s => (s, inl (mkResponse code b)).

(** [await storage.read(..)] for an operation that only reads. *)
Definition query {A} (f : MemStorage -> A) : Route A :=
  fun s => (s, inr (f s)).

(** [await storage.write(..)] for an operation that updates the store. *)
Definition exec {A} (f : MemStorage -> MemStorage * A) : Route A :=
  fun s => (fst (f s), inr (snd (f s))).

Notation "x <- m ;; k" := (bind m (fun x => k))
  (at level 61, m at next level, right associativity).
Notation "m ;; k" := (bind m (fun _ => k))
  (at level 61, right associativity).

Fixpoint forEach {A} (l : list A) (f : A -> Route unit) : Route unit :=
  match l with
  | [] => ret tt
  | x :: l' => f x ;; forEach l' f
  end.

Definition when (b : bool) (m : Route unit) : Route unit :=
  if b then m else ret tt.

(** The store and the response a handler leaves behind. *)
Definition run (m : Route Response) (s : MemStorage) : MemStorage * Response :=
  (fst (m s), match snd (m s) with inl r => r | inr r => r end).

(** The error classes of the specification, read off the HTTP status. *)
Definition NotFound (r : Response) : Prop := statusCode r = 404.
Definition ValidationError (r : Response) : Prop := statusCode r = 400.
Definition Succeeded (r : Response) : Prop :=
  statusCode r = 200 \/ statusCode r = 201.

(** [createGameRequestSchema]: a name of 1 to 100 characters, 1 to 10
    rounds, 2 to 5 player ids. *)
Definition validCreateGameRequest (name : string) (totalRounds : Z)
           (playerIds : list Z) : bool :=
  (1 <=? Z.of_nat (String.length name)) &&
  (Z.of_nat (String.length name) <=? 100) &&
  (1 <=? totalRounds) && (totalRounds <=? 10) &&
  (2 <=? Z.of_nat (length playerIds)) &&
  (Z.of_nat (length playerIds) <=? 5).

(** POST /games.  The ids of the request are user ids. *)
Definition postGames (randomIndex : RandomSource) (now : Z) (name : string)
           (totalRounds : Z) (playerIds : list Z) : Route Response :=
  if negb (validCreateGameRequest name totalRounds playerIds)
  then reply 400 (Message "Invalid game data")
  else
    (* First player (at index 0) is the host *)
    let hostId := nth 0 playerIds 0 in
    game <- exec (createGame now name hostId totalRounds) ;;
    forEach (combine (seq 0 (length playerIds)) playerIds)
            (fun ip =>
               let isHost := Nat.eqb (fst ip) 0 in
               exec (addPlayerToGame (Game.id game) (snd ip) isHost) ;;
               ret tt) ;;
    round <- exec (createRound (Game.id game) 1 hostId
                               (generateRandomWords randomIndex 5) 300) ;;
    (* Create empty poems for all players except the judge *)
    forEach playerIds
            (fun playerId =>
               when (negb (playerId =? hostId))
                    (exec (createPoem (Round.id round) playerId []) ;;
                     ret tt)) ;;
    gameWithDetails <- query (getGameWithPlayers (Game.id game)) ;;
    reply 201 (GameBody gameWithDetails).

(** *** Local time of a [Date]

    [getSeconds] and [setSeconds] work on the local-time fields of a
    [Date].  The time zone of the server is given by its offset from UTC
    in milliseconds, once as a function of a UTC time value (the
    adjustment [LocalTime] adds) and once as a function of a local time
    value (the adjustment [UTC] takes off; at a change of offset the two
    differ).  The clock reading and the time limits of the store keep
    every time value far inside the range of [Date], where [TimeClip]
    changes nothing. *)
Record Zone : Type := mkZone {
  offsetOfUtc : Z -> Z;
  offsetOfLocal : Z -> Z
}.

Definition LocalTime (zone : Zone) (t : Z) : Z := t + offsetOfUtc zone t.

Definition UTC (zone : Zone) (t : Z) : Z := t - offsetOfLocal zone t.

Definition SecFromTime (t : Z) : Z := (t / 1000) mod 60.

(** [date.getSeconds()] for the [Date] of time value [t]. *)
Definition getSeconds (zone : Zone) (t : Z) : Z :=
  SecFromTime (LocalTime zone t).

(** The time value of [date] after [date.setSeconds(sec)]: the local time
    with its seconds field replaced by [sec] (which may exceed 59), taken
    back to UTC. *)
Definition setSeconds (zone : Zone) (t : Z) (sec : Z) : Z :=
  let localTime := LocalTime zone t in
  UTC zone (localTime - 1000 * SecFromTime localTime + 1000 * sec).

(** A server whose zone is UTC. *)
Definition utcZone : Zone := mkZone (fun _ => 0) (fun _ => 0).

(** PUT /rounds/:id/status, with
    [endTime.setSeconds(endTime.getSeconds() + round.timeLimit)] on the
    [Date] of the request. *)
Definition putRoundStatus (zone : Zone) (now : Z) (roundId : Z)
           (status : RoundStatus.t) : Route Response :=
  round <- query (getRound roundId) ;;
  match round with
  | None => reply 404 (Message "Round not found")
  | Some round =>
      when (RoundStatus.eqb status RoundStatus.writing)
           (exec (updateRoundEndTime
                    roundId
                    (setSeconds zone now
                                (getSeconds zone now + Round.timeLimit round))) ;;
            ret tt) ;;
      exec (updateRoundStatus roundId status) ;;
      roundWithDetails <- query (getRoundWithPoems roundId) ;;
      reply 200 (RoundBody roundWithDetails)
  end.

(** PUT /poems/:id *)
Definition putPoem (poemId : Z) (content : JsString) : Route Response :=
  updatedPoem <- exec (updatePoem poemId content) ;;
  match updatedPoem with
  | None => reply 404 (Message "Poem not found")
  | Some _ => reply 200 (PoemBody updatedPoem)
  end.

(** [poems.every(p => p.submitted)] over the poems of a round. *)
Definition allSubmitted (roundId : Z) (s : MemStorage) : bool :=
  forallb Poem.submitted (getPoemsByRound roundId s).

(** POST /poems/:id/submit *)
Definition postPoemSubmit (now : Z) (poemId : Z) : Route Response :=
  poem <- query (getPoem poemId) ;;
  match poem with
  | None => reply 404 (Message "Poem not found")
  | Some poem =>
      if negb (truthy (trim (Poem.content poem)))
      then reply 400 (Message "Cannot submit empty poem")
      else
        updatedPoem <- exec (submitPoem now poemId) ;;
        (* auto-transition to the judging phase *)
        round <- query (getRound (Poem.roundId poem)) ;;
        match round with
        | None => ret tt
        | Some round =>
            allSubmitted <- query (allSubmitted (Round.id round)) ;;
            when (allSubmitted &&
                  RoundStatus.eqb (Round.status round) RoundStatus.writing)
                 (exec (updateRoundStatus (Round.id round)
                                          RoundStatus.judging) ;;
                  ret tt)
        end ;;
        reply 200 (PoemBody updatedPoem)
  end.

(** POST /rounds/:id/winner *)
Definition postRoundWinner (roundId poemId : Z) : Route Response :=
  poem <- query (getPoem poemId) ;;
  match poem with
  | None => reply 404 (Message "Poem not found")
  | Some poem =>
      let winnerId := Poem.playerId poem in
      round <- query (getRound roundId) ;;
      match round with
      | None => reply 404 (Message "Round not found")
      | Some round =>
          (* Update the round with the winner *)
          exec (setRoundWinner roundId winnerId) ;;
          (* Increment the winner's score *)
          exec (updatePlayerScore winnerId 1) ;;
          game <- query (getGameWithPlayers (Round.gameId round)) ;;
          reply 200 (GameBody game)
      end
  end.

(** The judge rotation of POST /games/:id/next-round: the size check, the
    next index [(currentJudgeIndex + 1) % playerCount] (the remainder of
    JavaScript takes the sign of the dividend) and the player at that
    position.  Reading [userId] off a position outside the array throws,
    and the handler's [catch] answers 500. *)
Definition nextJudge (game : Game.t) (players : list Player.t)
  : Response + (Z * Player.t) :=
  let playerCount := Z.of_nat (length players) in
  if playerCount <? 2
  then inl (mkResponse 400 (Message "Not enough players"))
  else
    let nextJudgeIndex := Z.rem (Game.currentJudgeIndex game + 1) playerCount in
    match (if nextJudgeIndex <? 0 then None
           else nth_error players (Z.to_nat nextJudgeIndex)) with
    | None => inl (mkResponse 500 (Message "Error starting next round"))
    | Some judge => inr (nextJudgeIndex, judge)
    end.

(** POST /games/:id/next-round *)
Definition postGameNextRound (randomIndex : RandomSource) (gameId : Z)
  : Route Response :=
  game <- query (getGame gameId) ;;
  match game with
  | None => reply 404 (Message "Game not found")
  | Some game =>
      if Game.totalRounds game <=? Game.currentRound game
      then
        (* Game is over, mark as completed *)
        exec (updateGame gameId
                (mkGameUpdates (Some GameStatus.completed) None None)) ;;
        reply 400 (Message "Game is already completed")
      else
        players <- query (getPlayersByGame gameId) ;;
        match nextJudge game players with
        | inl response => fun s => (s, inl response)
        | inr (nextJudgeIndex, judge) =>
            let nextJudgeId := Player.userId judge in
            let nextRoundNumber := Game.currentRound game + 1 in
            exec (updateGame gameId
                    (mkGameUpdates None (Some nextRoundNumber)
                                   (Some nextJudgeIndex))) ;;
            newRound <- exec (createRound gameId nextRoundNumber nextJudgeId
                                (generateRandomWords randomIndex 5) 300) ;;
            (* Create empty poems for all players except the judge *)
            forEach players
                    (fun player =>
                       when (negb (Player.userId player =? nextJudgeId))
                            (exec (createPoem (Round.id newRound)
                                              (Player.id player) []) ;;
                             ret tt)) ;;
            updatedGame <- query (getGameWithPlayers gameId) ;;
            reply 200 (GameBody updatedGame)
        end
  end.

(** ** A played round

    A fresh server; user 2 (Emma) hosts a three-round game with user 1
    (John).  Emma's player record gets id 1 and John's gets id 2.  Emma
    judges round 1, John writes poem 1. *)

Definition firstIndex : RandomSource := fun _ _ => 0%nat.

Definition afterCreate : MemStorage :=
  fst (run (postGames firstIndex 1000 "Poets" 3 [2; 1]) newMemStorage).

Definition afterStart : MemStorage :=
  fst (run (putRoundStatus utcZone 2000 1 RoundStatus.writing) afterCreate).

Definition afterDraft : MemStorage :=
  fst (run (putPoem 1 (utf16 "the moon is a silver door")) afterStart).

Definition afterSubmit : MemStorage :=
  fst (run (postPoemSubmit 3000 1) afterDraft).

Definition afterWinner : MemStorage :=
  fst (run (postRoundWinner 1 1) afterSubmit).

Definition afterSecondWinner : MemStorage :=
  fst (run (postRoundWinner 1 1) afterWinner).

(** The same round played by any two users of a fresh server, up to the
    point where the judge picks the winner: the game is created, the judge
    opens the writing phase, the writer drafts and submits poem 1. *)
Definition roundInJudging (playerIds : list Z) : MemStorage :=
  let s := fst (run (postGames firstIndex 1000 "Poets" 3 playerIds)
                    newMemStorage) in
  let s := fst (run (putRoundStatus utcZone 2000 1 RoundStatus.writing) s) in
  let s := fst (run (putPoem 1 (utf16 "the moon is a silver door")) s) in
  fst (run (postPoemSubmit 3000 1) s).

(** John (user 1) hosts Emma (user 2) and Robert (user 3).  Emma's poem 1
    is submitted; Robert's poem 2 is drafted and not submitted, so the
    round is still in writing. *)
Definition trioDrafted : MemStorage :=
  fst (run (putPoem 2 (utf16 "a key of glass")) (roundInJudging [1; 2; 3])).

(** Sarah (user 4) and Michael (user 5) after their first round, and at
    the start of their second round. *)
Definition firstRoundOver : MemStorage :=
  fst (run (postRoundWinner 1 1) (roundInJudging [4; 5])).

Definition secondRound : MemStorage :=
  fst (run (postGameNextRound firstIndex 1) firstRoundOver).

(** A game of a single round: its only round is the current one from the
    start. *)
Definition oneRoundGame : MemStorage :=
  fst (run (postGames firstIndex 1000 "Haiku" 1 [1; 2]) newMemStorage).

(** A game whose roster holds the host alone, as the store operations
    build it. *)
Definition soloGame : MemStorage :=
  let s := fst (createGame 1000 "Solo" 1 3 newMemStorage) in
  fst (addPlayerToGame 1 1 true s).

(** ** Notions used to state the properties *)

(** A boolean check that a list of words has no repetition. *)
Fixpoint nodupb (l : list string) : bool :=
  match l with
  | [] => true
  | x :: l' => negb (existsb (String.eqb x) l') && nodupb l'
  end.

(** The loops that create poems touch the poems and their counter only. *)
Definition sameButPoems (s s' : MemStorage) : Prop :=
  users s' = users s /\ games s' = games s /\ players s' = players s /\
  rounds s' = rounds s /\ userIdCounter s' = userIdCounter s /\
  gameIdCounter s' = gameIdCounter s /\
  playerIdCounter s' = playerIdCounter s /\
  roundIdCounter s' = roundIdCounter s.

(** The loop that adds players touches the players and their counter
    only. *)
Definition sameButPlayers (s s' : MemStorage) : Prop :=
  users s' = users s /\ games s' = games s /\ rounds s' = rounds s /\
  poems s' = poems s /\ userIdCounter s' = userIdCounter s /\
  gameIdCounter s' = gameIdCounter s /\
  roundIdCounter s' = roundIdCounter s /\
  poemIdCounter s' = poemIdCounter s.

(** The body of the two poem-creating loops: an empty poem for every
    element that passes the test. *)
Definition createPoemsLoop {A} (roundId : Z) (writes : A -> bool)
           (author : A -> Z) (l : list A) : Route unit :=
  forEach l (fun x =>
               when (writes x)
                    (exec (createPoem roundId (author x) []) ;; ret tt)).

(** The loop of POST /games that adds the players. *)
Definition addPlayersLoop (gameId : Z) (ips : list (nat * Z)) : Route unit :=
  forEach ips (fun ip =>
                 let isHost := Nat.eqb (fst ip) 0 in
                 exec (addPlayerToGame gameId (snd ip) isHost) ;;
                 ret tt).

(** ** The remaining handlers and the standings

    The handlers of server/routes.ts that run on the store besides the six
    above, the client wrapper of the word generator, and the final standing
    of the results view. *)

(** [getUserByUsername]: the first user, in insertion order, with that
    name. *)
Definition getUserByUsername (username : string) (s : MemStorage)
  : option User.t :=
  find (fun user => String.eqb (User.username user) username)
       (JsMap.values (users s)).

(** The bodies POST /users answers with: a message, or the id and name of
    the new user (the password is not sent back). *)
Inductive UsersBody : Type :=
| UsersMessage (message : string)
| UsersCreated (id : Z) (username : string).

(** A field of the request body is falsy when it is absent or the empty
    string. *)
Definition falsyField (field : option string) : bool :=
  match field with
  | None => true
  | Some text => String.eqb text ""
  end.

(** POST /users *)
Definition postUsers (username password : option string) (s : MemStorage)
  : MemStorage * (Z * UsersBody) :=
  if falsyField username || falsyField password
  then (s, (400, UsersMessage "Username and password are required"))
  else
    match username, password with
    | Some username, Some password =>
        match getUserByUsername username s with
        | Some _ => (s, (409, UsersMessage "Username already taken"))
        | None =>
            let created := createUser username password s in
            (fst created,
             (201, UsersCreated (User.id (snd created))
                                (User.username (snd created))))
        end
    | _, _ => (s, (400, UsersMessage "Username and password are required"))
    end.

(** GET /games/:id *)
Definition getGameById (gameId : Z) : Route Response :=
  game <- query (getGameWithPlayers gameId) ;;
  match game with
  | None => reply 404 (Message "Game not found")
  | Some _ => reply 200 (GameBody game)
  end.

(** GET /random-words: [Number(req.query.count) || 5], where [None] stands
    for a parameter that is absent or not a number. *)
Definition getRandomWordsRoute (randomIndex : RandomSource) (count : option Z)
  : Z * list string :=
  let count :=
    match count with
    | None => 5
    | Some c => if c =? 0 then 5 else c
    end in
  (200, generateRandomWords randomIndex count).

(** [getRandomWords(count = 5)] of client/src/lib/wordGenerator.ts: the
    default applies to an omitted argument only. *)
Definition getRandomWords (randomIndex : RandomSource) (count : option Z)
  : list string :=
  generateRandomWords randomIndex
                      (match count with None => 5 | Some c => c end).

(** The player announced when the game is completed (ResultsPhase):
    [players.reduce((prev, current) =>
       (prev.score > current.score) ? prev : current)].
    Without an initial value [reduce] throws on an empty array. *)
Definition overallWinner (players : list Player.t) : option Player.t :=
  match players with
  | [] => None
  | first :: rest =>
      Some (fold_left
              (fun prev current =>
                 if Player.score current <? Player.score prev
                 then prev else current)
              rest first)
  end.

(** [k] next-round requests in a row for the same game. *)
Fixpoint nextRounds (randomIndex : RandomSource) (gameId : Z) (k : nat)
         (s : MemStorage) : MemStorage :=
  match k with
  | O => s
  | S k' =>
      nextRounds randomIndex gameId k'
                 (fst (run (postGameNextRound randomIndex gameId) s))
  end.

(** The requests that run on the store, each with the inputs its handler
    reads (the time of the request, the zone of the server, the random
    source of its word draw),
    and the store a sequence of requests leaves behind. *)
Inductive Request : Type :=
| PostUsers (username password : option string)
| PostGames (randomIndex : RandomSource) (now : Z) (name : string)
            (totalRounds : Z) (playerIds : list Z)
| GetGame (gameId : Z)
| PutRoundStatus (zone : Zone) (now roundId : Z) (status : RoundStatus.t)
| PutPoem (poemId : Z) (content : JsString)
| PostPoemSubmit (now poemId : Z)
| PostRoundWinner (roundId poemId : Z)
| PostGameNextRound (randomIndex : RandomSource) (gameId : Z).

Definition serve (request : Request) (s : MemStorage) : MemStorage :=
  match request with
  | PostUsers username password => fst (postUsers username password s)
  | PostGames randomIndex now name totalRounds playerIds =>
      fst (run (postGames randomIndex now name totalRounds playerIds) s)
  | GetGame gameId => fst (run (getGameById gameId) s)
  | PutRoundStatus zone now roundId status =>
      fst (run (putRoundStatus zone now roundId status) s)
  | PutPoem poemId content => fst (run (putPoem poemId content) s)
  | PostPoemSubmit now poemId => fst (run (postPoemSubmit now poemId) s)
  | PostRoundWinner roundId poemId =>
      fst (run (postRoundWinner roundId poemId) s)
  | PostGameNextRound randomIndex gameId =>
      fst (run (postGameNextRound randomIndex gameId) s)
  end.

Definition serveAll (requests : list Request) (s : MemStorage) : MemStorage :=
  fold_left (fun s request => serve request s) requests s.

(** ** Invariants of the store *)

(** A map of the store is in order when its keys are distinct, every
    record sits under its own id, and every key is below the counter that
    hands out the next id. *)
Definition mapOk {V} (idOf : V -> Z) (counter : Z) (m : JsMap.t V) : Prop :=
  NoDup (map fst m) /\
  forall k v, In (k, v) m -> idOf v = k /\ k < counter.

Definition wellFormed (s : MemStorage) : Prop :=
  mapOk User.id (userIdCounter s) (users s) /\
  mapOk Game.id (gameIdCounter s) (games s) /\
  mapOk Player.id (playerIdCounter s) (players s) /\
  mapOk Round.id (roundIdCounter s) (rounds s) /\
  mapOk Poem.id (poemIdCounter s) (poems s).

(** No score is lower in [s'] than in [s]. *)
Definition scoresGrow (s s' : MemStorage) : Prop :=
  forall playerId, getPlayerScore playerId s <= getPlayerScore playerId s'.

(** Every id handed out before [s] reads in [s'] as it does in [s], and no
    counter has gone back. *)
Definition retains (s s' : MemStorage) : Prop :=
  (userIdCounter s <= userIdCounter s' /\
   forall k, k < userIdCounter s -> getUser k s' = getUser k s) /\
  (gameIdCounter s <= gameIdCounter s' /\
   forall k, k < gameIdCounter s -> getGame k s' = getGame k s) /\
  (playerIdCounter s <= playerIdCounter s' /\
   forall k, k < playerIdCounter s ->
             JsMap.get k (players s') = JsMap.get k (players s)) /\
  (roundIdCounter s <= roundIdCounter s' /\
   forall k, k < roundIdCounter s -> getRound k s' = getRound k s) /\
  (poemIdCounter s <= poemIdCounter s' /\
   forall k, k < poemIdCounter s -> getPoem k s' = getPoem k s).

(** No two users of the store share a name. *)
Definition uniqueNames (s : MemStorage) : Prop :=
  NoDup (map User.username (JsMap.values (users s))).

(** The users and their counter are the same in [s'] as in [s]. *)
Definition sameUsers (s s' : MemStorage) : Prop :=
  users s' = users s /\ userIdCounter s' = userIdCounter s.

(** The games are the same in [s'] as in [s]. *)
Definition sameGames (s s' : MemStorage) : Prop := games s' = games s.

(** Every game of the store is within its rounds: the current round lies
    between 1 and the total, the total is at most 10, the judge index is
    not negative, and the status is not active. *)
Definition gameInBounds (game : Game.t) : Prop :=
  1 <= Game.currentRound game <= Game.totalRounds game /\
  Game.totalRounds game <= 10 /\
  0 <= Game.currentJudgeIndex game /\
  Game.status game <> GameStatus.active.

Definition gamesInBounds (s : MemStorage) : Prop :=
  forall gameId game, getGame gameId s = Some game -> gameInBounds game.

(** The invariant that asks nothing of the store. *)
Definition anyStore (s : MemStorage) : Prop := True.

(** A handler respects an invariant [P] and a relation [R] between the
    store before and after when, started in a store with [P], it ends in a
    store with [P] that is [R]-related to the start. *)
Definition respects (P : MemStorage -> Prop)
           (R : MemStorage -> MemStorage -> Prop) {A} (m : Route A) : Prop :=
  forall s, P s -> P (fst (m s)) /\ R s (fst (m s)).

(** * Properties *)

(** ** Facts about [JsMap] *)

Module JsMapFacts.
Import JsMap.

Lemma has_get {V} (k : Z) (m : t V) :
  has k m = true <-> exists v, get k m = Some v.
Proof.
  unfold has, get. induction m as [|[k' v'] m IH]; simpl.
  - split; [discriminate | intros [v H]; discriminate].
  - destruct (k' =? k); simpl.
    + split; [intros _; now exists v' | reflexivity].
    + exact IH.
Qed.

Lemma get_set_eq {V} (k : Z) (v : V) (m : t V) :
  get k (set k v m) = Some v.
Proof.
  unfold set. destruct (has k m) eqn:Hh.
  - unfold has, get in *. induction m as [|[k' v'] m IH]; simpl in *.
    + discriminate.
    + destruct (k' =? k) eqn:Hk; simpl.
      * now rewrite Z.eqb_refl.
      * rewrite Hk. simpl in Hh. now apply IH.
  - unfold has, get in *. induction m as [|[k' v'] m IH]; simpl in *.
    + now rewrite Z.eqb_refl.
    + destruct (k' =? k) eqn:Hk; simpl in *; [discriminate | now apply IH].
Qed.

Lemma get_set_neq {V} (k k' : Z) (v : V) (m : t V) :
  k' <> k -> get k' (set k v m) = get k' m.
Proof.
  intros Hne. unfold set. destruct (has k m).
  - unfold get. induction m as [|[k0 v0] m IH]; simpl; [reflexivity|].
    destruct (k0 =? k) eqn:Hk; simpl.
    + apply Z.eqb_eq in Hk. subst k0.
      assert ((k =? k') = false) as -> by (apply Z.eqb_neq; congruence).
      exact IH.
    + destruct (k0 =? k'); [reflexivity | exact IH].
  - unfold get. induction m as [|[k0 v0] m IH]; simpl.
    + assert ((k =? k') = false) as -> by (apply Z.eqb_neq; congruence).
      reflexivity.
    + destruct (k0 =? k'); [reflexivity | exact IH].
Qed.

(** Every entry after a [set] is the entry written or an untouched entry
    of another key. *)
Lemma in_set {V} (k : Z) (v : V) (m : t V) (k' : Z) (v' : V) :
  In (k', v') (set k v m) ->
  (k' = k /\ v' = v) \/ (k' <> k /\ In (k', v') m).
Proof.
  unfold set. destruct (has k m) eqn:Hh.
  - clear Hh. induction m as [|[k0 v0] m IH]; simpl; [tauto|].
    intros [H | H].
    + destruct (k0 =? k) eqn:Hk.
      * left. now inversion H.
      * right. inversion H; subst. apply Z.eqb_neq in Hk. tauto.
    + destruct (IH H) as [? | [? ?]]; tauto.
  - intros H. apply in_app_or in H. destruct H as [H | [H | []]].
    + right. split; [|exact H].
      intros ->. unfold has in Hh.
      assert (existsb (fun kv : Z * V => fst kv =? k) m = true); [|congruence].
      apply existsb_exists. exists (k, v'). split; [exact H | apply Z.eqb_refl].
    + left. now inversion H.
Qed.

(** A [set] never drops the entry of another key. *)
Lemma in_set_other {V} (k : Z) (v : V) (m : t V) (k' : Z) (v' : V) :
  k' <> k -> In (k', v') m -> In (k', v') (set k v m).
Proof.
  intros Hne Hin. unfold set. destruct (has k m).
  - apply in_map_iff. exists (k', v'). split; [|exact Hin].
    simpl. now assert ((k' =? k) = false) as -> by (now apply Z.eqb_neq).
  - apply in_or_app. now left.
Qed.

End JsMapFacts.

(** ** The word pool: draws are distinct words of the pool *)

Lemma nodupb_sound (l : list string) : nodupb l = true -> NoDup l.
Proof.
  induction l as [|x l IH]; simpl; intros H; constructor.
  - apply andb_prop in H. destruct H as [H _].
    intros Hin. apply negb_true_iff in H.
    assert (existsb (String.eqb x) l = true); [|congruence].
    apply existsb_exists. exists x. split; [exact Hin | apply String.eqb_refl].
  - apply IH. now apply andb_prop in H.
Qed.

Lemma poeticWords_NoDup : NoDup poeticWords.
Proof. apply nodupb_sound. vm_compute. reflexivity. Qed.

Lemma poeticWords_length : length poeticWords = 120%nat.
Proof. reflexivity. Qed.

Lemma splice1_permutation {A} (d : A) (i : nat) (l : list A) :
  (i < length l)%nat -> Permutation l (nth i l d :: splice1 i l).
Proof.
  unfold splice1. revert i. induction l as [|x l IH]; simpl; intros i Hi.
  - lia.
  - destruct i as [|i]; simpl.
    + reflexivity.
    + rewrite perm_swap. constructor. apply IH. lia.
Qed.

Lemma splice1_length {A} (i : nat) (l : list A) :
  (i < length l)%nat -> S (length (splice1 i l)) = length l.
Proof.
  intros Hi. destruct l as [|d l']; [simpl in Hi; lia|].
  symmetry.
  exact (Permutation_length (splice1_permutation d i (d :: l') Hi)).
Qed.

Section Draw.

Variable randomIndex : RandomSource.
Hypothesis randomIndex_in_range : in_range randomIndex.

(** One iteration moves a word from the available words to the result, so
    both lists together stay a rearrangement of the pool. *)
Lemma drawLoop_permutation (todo i : nat) (availableWords result : list string) :
  exists rest,
    Permutation (drawLoop randomIndex todo i availableWords result ++ rest)
                (result ++ availableWords).
Proof.
  revert i availableWords result.
  induction todo as [|todo IH]; intros i avail result.
  - exists avail. reflexivity.
  - destruct avail as [|w avail'].
    + exists []. reflexivity.
    + cbn [drawLoop].
      set (avail := w :: avail').
      set (idx := randomIndex i (length avail)).
      destruct (IH (S i) (splice1 idx avail) (result ++ [nth idx avail EmptyString]))
        as [rest Hrest].
      exists rest. rewrite Hrest. rewrite <- app_assoc.
      apply Permutation_app_head. symmetry.
      apply (splice1_permutation EmptyString idx avail).
      apply randomIndex_in_range. subst avail. simpl. lia.
Qed.

Lemma drawLoop_length (todo i : nat) (availableWords result : list string) :
  length (drawLoop randomIndex todo i availableWords result)
  = (length result + Nat.min todo (length availableWords))%nat.
Proof.
  revert i availableWords result.
  induction todo as [|todo IH]; intros i avail result.
  - simpl. lia.
  - destruct avail as [|w avail'].
    + simpl. lia.
    + cbn [drawLoop].
      set (avail := w :: avail').
      set (idx := randomIndex i (length avail)).
      rewrite IH. rewrite length_app.
      assert (Hidx : (idx < length avail)%nat).
      { apply randomIndex_in_range. subst avail. simpl. lia. }
      pose proof (splice1_length idx avail Hidx). simpl length at 2. lia.
Qed.

End Draw.

Lemma firstIndex_in_range : in_range firstIndex.
Proof. intros i n Hn. exact Hn. Qed.

(** C9.  Whatever the random source picks (within its range), a draw of
    [count] words repeats no word and takes every word from the static
    pool.  A count between 0 and the pool size yields exactly [count]
    words; a larger count yields the whole pool once, hence fewer words
    than asked for. *)
Theorem generateRandomWords_distinct_from_pool
        (randomIndex : RandomSource) (count : Z) :
  in_range randomIndex ->
  let words := generateRandomWords randomIndex count in
  NoDup words /\
  incl words poeticWords /\
  (0 <= count <= Z.of_nat (length poeticWords) ->
   Z.of_nat (length words) = count) /\
  (Z.of_nat (length poeticWords) < count ->
   length words = length poeticWords /\ Z.of_nat (length words) < count).
Proof.
  intros Hrange words.
  destruct (drawLoop_permutation randomIndex Hrange (Z.to_nat count) 0
                                 poeticWords []) as [rest Hperm].
  fold (generateRandomWords randomIndex count) in Hperm. fold words in Hperm.
  simpl app in Hperm.
  assert (Hlen : length words
                 = Nat.min (Z.to_nat count) (length poeticWords)).
  { unfold words, generateRandomWords.
    rewrite (drawLoop_length randomIndex Hrange). reflexivity. }
  repeat split.
  - apply NoDup_app_remove_r with (l' := rest).
    apply (Permutation_NoDup (Permutation_sym Hperm)), poeticWords_NoDup.
  - intros w Hw.
    apply (Permutation_in w Hperm), in_or_app. now left.
  - intros Hc. rewrite Hlen. lia.
  - rewrite Hlen. lia.
  - rewrite Hlen. lia.
Qed.

Lemma generateRandomWords_distinct_from_pool_witness :
  (NoDup (generateRandomWords firstIndex 5) /\
   Z.of_nat (length (generateRandomWords firstIndex 5)) = 5) /\
  Z.of_nat (length (generateRandomWords firstIndex 121)) < 121.
Proof.
  split.
  - destruct (generateRandomWords_distinct_from_pool
                firstIndex 5 firstIndex_in_range) as (Hnd & _ & Hexact & _).
    split; [exact Hnd | apply Hexact; rewrite poeticWords_length; lia].
  - destruct (generateRandomWords_distinct_from_pool
                firstIndex 121 firstIndex_in_range) as (_ & _ & _ & Hmore).
    apply Hmore. rewrite poeticWords_length. lia.
Defined.

(** ** Blank strings are the ones [trim] empties *)

Lemma forallb_rev {A} (f : A -> bool) (l : list A) :
  forallb f (rev l) = forallb f l.
Proof.
  induction l as [|a l IH]; simpl; [reflexivity|].
  rewrite forallb_app, IH. simpl. rewrite andb_true_r. apply andb_comm.
Qed.

Lemma trimStart_nil (s : JsString) :
  trimStart s = [] <-> forallb isWhiteSpace s = true.
Proof.
  induction s as [|c s IH]; simpl; [tauto|].
  destruct (isWhiteSpace c); simpl; [exact IH | split; discriminate].
Qed.

Lemma forallb_trimStart (s : JsString) :
  forallb isWhiteSpace (trimStart s) = forallb isWhiteSpace s.
Proof.
  induction s as [|c s IH]; simpl; [reflexivity|].
  destruct (isWhiteSpace c) eqn:Hc; simpl; [exact IH | now rewrite Hc].
Qed.

Lemma trim_falsy_iff_blank (s : JsString) :
  truthy (trim s) = false <-> blank s.
Proof.
  unfold blank, trim, trimEnd.
  rewrite <- (forallb_forall isWhiteSpace s).
  rewrite <- forallb_trimStart, <- forallb_rev, <- trimStart_nil.
  destruct (trimStart (rev (trimStart s))) as [|c l] eqn:Ht; simpl.
  - tauto.
  - destruct (rev l ++ [c]) eqn:Hr.
    + now destruct (rev l).
    + split; discriminate.
Qed.

Lemma trim_truthy_iff_not_blank (s : JsString) :
  truthy (trim s) = true <-> ~ blank s.
Proof.
  rewrite <- trim_falsy_iff_blank. destruct (truthy (trim s)); split; congruence.
Qed.

(** ** What the store operations leave alone *)

Lemma updateRoundStatus_poems (id : Z) (status : RoundStatus.t) (s : MemStorage) :
  poems (fst (updateRoundStatus id status s)) = poems s.
Proof. unfold updateRoundStatus. now destruct (JsMap.get id (rounds s)). Qed.

Lemma updateRoundStatus_getRound (id : Z) (status : RoundStatus.t)
      (s : MemStorage) (round : Round.t) :
  getRound id s = Some round ->
  getRound id (fst (updateRoundStatus id status s))
  = Some (Round.mk (Round.id round) (Round.gameId round)
                   (Round.roundNumber round) (Round.judgeId round)
                   (Round.words round) status (Round.timeLimit round)
                   (Round.endTime round) (Round.winnerId round)).
Proof.
  unfold getRound, updateRoundStatus. intros ->. simpl.
  apply JsMapFacts.get_set_eq.
Qed.

Lemma updateRoundEndTime_getRound (id endTime : Z)
      (s : MemStorage) (round : Round.t) :
  getRound id s = Some round ->
  getRound id (fst (updateRoundEndTime id endTime s))
  = Some (Round.mk (Round.id round) (Round.gameId round)
                   (Round.roundNumber round) (Round.judgeId round)
                   (Round.words round) (Round.status round)
                   (Round.timeLimit round) (Some endTime)
                   (Round.winnerId round)).
Proof.
  unfold getRound, updateRoundEndTime. intros ->. simpl.
  apply JsMapFacts.get_set_eq.
Qed.

Lemma submitPoem_getPoem (now id : Z) (s : MemStorage) (poem : Poem.t) :
  getPoem id s = Some poem ->
  getPoem id (fst (submitPoem now id s))
  = Some (Poem.mk (Poem.id poem) (Poem.roundId poem) (Poem.playerId poem)
                  (Poem.content poem) true (Some now)).
Proof.
  unfold getPoem, submitPoem. intros ->. simpl.
  apply JsMapFacts.get_set_eq.
Qed.

Lemma submitPoem_rounds (now id : Z) (s : MemStorage) :
  rounds (fst (submitPoem now id s)) = rounds s.
Proof. unfold submitPoem. now destruct (JsMap.get id (poems s)). Qed.

(** Unfolding a handler down to the store operations. *)
Ltac route :=
  unfold run, when, bind, query, exec, reply, ret; cbn [fst snd].

(** C7.  Submitting a poem whose content is empty or white space only
    fails with a validation error (400) and changes nothing in the store,
    so the poem keeps its submitted flag and timestamp; submitting a poem
    with other content succeeds, sets [submitted] and stamps the poem with
    the time of the request. *)
Theorem submit_blank_fails_nonblank_succeeds
        (now poemId : Z) (s : MemStorage) (poem : Poem.t) :
  getPoem poemId s = Some poem ->
  let s' := fst (run (postPoemSubmit now poemId) s) in
  let response := snd (run (postPoemSubmit now poemId) s) in
  (blank (Poem.content poem) -> ValidationError response /\ s' = s) /\
  (~ blank (Poem.content poem) ->
   Succeeded response /\
   getPoem poemId s'
   = Some (Poem.mk (Poem.id poem) (Poem.roundId poem) (Poem.playerId poem)
                   (Poem.content poem) true (Some now))).
Proof.
  intros Hpoem. unfold postPoemSubmit. route. rewrite Hpoem.
  split; intros Hb.
  - apply trim_falsy_iff_blank in Hb. rewrite Hb. simpl. now split.
  - apply trim_truthy_iff_not_blank in Hb. rewrite Hb. cbn [negb].
    rewrite <- (submitPoem_getPoem now poemId s poem Hpoem).
    destruct (getRound (Poem.roundId poem) (fst (submitPoem now poemId s)))
      as [round|]; cbn [fst snd].
    + destruct (allSubmitted (Round.id round) (fst (submitPoem now poemId s))
                && RoundStatus.eqb (Round.status round) RoundStatus.writing);
        cbn [fst snd]; (split; [now left|]); unfold getPoem;
        [now rewrite updateRoundStatus_poems | reflexivity].
    + split; [now left | reflexivity].
Qed.

Lemma submit_blank_fails_nonblank_succeeds_witness :
  (ValidationError (snd (run (postPoemSubmit 3000 1) afterStart)) /\
   fst (run (postPoemSubmit 3000 1) afterStart) = afterStart) /\
  (Succeeded (snd (run (postPoemSubmit 3000 1) afterDraft)) /\
   option_map Poem.submittedAt
              (getPoem 1 (fst (run (postPoemSubmit 3000 1) afterDraft)))
   = Some (Some 3000)).
Proof.
  split.
  - pose proof (submit_blank_fails_nonblank_succeeds
                  3000 1 afterStart (Poem.mk 1 1 1 [] false None) eq_refl) as H.
    cbv zeta in H. apply H. intros c [].
  - pose proof (submit_blank_fails_nonblank_succeeds
                  3000 1 afterDraft
                  (Poem.mk 1 1 1 (utf16 "the moon is a silver door") false None)
                  eq_refl) as H.
    cbv zeta in H. destruct H as [_ H].
    destruct H as [Hok Hget].
    + intros Hb. specialize (Hb 116 (or_introl eq_refl)). discriminate.
    + split; [exact Hok | now rewrite Hget].
Defined.

(** ** Submission tracking and the automatic move to judging *)

Lemma allSubmitted_after_submit (now poemId : Z) (s : MemStorage) (poem : Poem.t) :
  getPoem poemId s = Some poem ->
  (forall k p, In (k, p) (poems s) -> k <> poemId ->
               Poem.roundId p = Poem.roundId poem -> Poem.submitted p = true) ->
  allSubmitted (Poem.roundId poem) (fst (submitPoem now poemId s)) = true.
Proof.
  intros Hpoem Hothers. unfold allSubmitted, getPoemsByRound.
  apply forallb_forall. intros p Hp.
  apply filter_In in Hp. destruct Hp as [Hp Hround].
  apply Z.eqb_eq in Hround.
  unfold JsMap.values in Hp. apply in_map_iff in Hp.
  destruct Hp as [[k p'] [Heq Hin]]. simpl in Heq. subst p'.
  unfold submitPoem in Hin. unfold getPoem in Hpoem. rewrite Hpoem in Hin.
  simpl in Hin. apply JsMapFacts.in_set in Hin.
  destruct Hin as [[_ ->] | [Hk Hin]]; [reflexivity|].
  now apply (Hothers k p).
Qed.

(** ** The exhausted game *)

Lemma updateGame_getGame (id : Z) (updates : GameUpdates)
      (s : MemStorage) (game : Game.t) :
  getGame id s = Some game ->
  getGame id (fst (updateGame id updates s)) = Some (applyUpdates game updates).
Proof.
  unfold getGame, updateGame. intros ->. simpl.
  apply JsMapFacts.get_set_eq.
Qed.

Lemma updateGame_getGame_other (id id' : Z) (updates : GameUpdates)
      (s : MemStorage) :
  id' <> id ->
  getGame id' (fst (updateGame id updates s)) = getGame id' s.
Proof.
  intros Hne. unfold getGame, updateGame.
  destruct (JsMap.get id (games s)); simpl; [|reflexivity].
  now apply JsMapFacts.get_set_neq.
Qed.

Lemma updateGame_frame (id : Z) (updates : GameUpdates) (s : MemStorage) :
  let s' := fst (updateGame id updates s) in
  users s' = users s /\ players s' = players s /\ rounds s' = rounds s /\
  poems s' = poems s /\ roundIdCounter s' = roundIdCounter s /\
  poemIdCounter s' = poemIdCounter s /\ playerIdCounter s' = playerIdCounter s.
Proof.
  unfold updateGame. destruct (JsMap.get id (games s)); simpl; tauto.
Qed.

(** C10.  On a game whose current round has reached the total, the
    next-round request fails (400, the game is already completed) and
    creates no round and no poem, yet it is not atomic: the game's status
    has been set to completed when the error is returned, the other fields
    and the other games being as before. *)
Theorem next_round_on_exhausted_game
        (randomIndex : RandomSource) (gameId : Z) (s : MemStorage)
        (game : Game.t) :
  getGame gameId s = Some game ->
  Game.totalRounds game <= Game.currentRound game ->
  let s' := fst (run (postGameNextRound randomIndex gameId) s) in
  let response := snd (run (postGameNextRound randomIndex gameId) s) in
  response = mkResponse 400 (Message "Game is already completed") /\
  ValidationError response /\
  rounds s' = rounds s /\ roundIdCounter s' = roundIdCounter s /\
  poems s' = poems s /\ players s' = players s /\
  getGame gameId s'
  = Some (Game.mk (Game.id game) (Game.name game) (Game.createdBy game)
                  (Game.currentRound game) (Game.totalRounds game)
                  (Game.currentJudgeIndex game) GameStatus.completed
                  (Game.createdAt game)) /\
  (forall other, other <> gameId -> getGame other s' = getGame other s) /\
  (Game.status game <> GameStatus.completed -> s' <> s).
Proof.
  intros Hgame Hover. unfold postGameNextRound. route. rewrite Hgame.
  apply Z.leb_le in Hover. rewrite Hover. cbn [fst snd].
  set (updates := mkGameUpdates (Some GameStatus.completed) None None).
  destruct (updateGame_frame gameId updates s)
    as (_ & Hplayers & Hrounds & Hpoems & Hrc & _ & _).
  repeat split; try assumption.
  - now rewrite (updateGame_getGame gameId updates s game Hgame).
  - intros other Hother. now apply updateGame_getGame_other.
  - intros Hstatus Heq.
    pose proof (updateGame_getGame gameId updates s game Hgame) as Hget.
    rewrite Heq, Hgame in Hget. inversion Hget as [Hg].
    apply Hstatus. rewrite Hg at 1. reflexivity.
Qed.

Lemma next_round_on_exhausted_game_witness :
  snd (run (postGameNextRound firstIndex 1) oneRoundGame)
  = mkResponse 400 (Message "Game is already completed") /\
  rounds (fst (run (postGameNextRound firstIndex 1) oneRoundGame))
  = rounds oneRoundGame /\
  option_map Game.status
             (getGame 1 (fst (run (postGameNextRound firstIndex 1) oneRoundGame)))
  = Some GameStatus.completed /\
  fst (run (postGameNextRound firstIndex 1) oneRoundGame) <> oneRoundGame.
Proof.
  pose proof (next_round_on_exhausted_game
                firstIndex 1 oneRoundGame
                (Game.mk 1 "Haiku" 1 1 1 0 GameStatus.waiting 1000)
                eq_refl) as H.
  cbv zeta in H.
  destruct H as (Hresp & _ & Hrounds & _ & _ & _ & Hgame & _ & Hchanged).
  - simpl. lia.
  - split; [exact Hresp|]. split; [exact Hrounds|]. split.
    + rewrite Hgame. reflexivity.
    + apply Hchanged. discriminate.
Defined.

(** ** The round status request *)

(** C1, as the code has it.  The status request checks no order: on an
    existing round every requested status, be it a step forward, a step
    back, a skip or a move out of completed, is stored and answered with
    200; the only failure is an unknown round (404), which changes
    nothing. *)
Theorem putRoundStatus_stores_any_status
        (zone : Zone) (now roundId : Z) (status : RoundStatus.t)
        (s : MemStorage) :
  let s' := fst (run (putRoundStatus zone now roundId status) s) in
  let response := snd (run (putRoundStatus zone now roundId status) s) in
  (forall round,
      getRound roundId s = Some round ->
      statusCode response = 200 /\
      option_map Round.status (getRound roundId s') = Some status) /\
  (getRound roundId s = None -> NotFound response /\ s' = s).
Proof.
  unfold putRoundStatus. route. split.
  - intros round Hround. rewrite Hround.
    destruct (RoundStatus.eqb status RoundStatus.writing); cbn [fst snd].
    + split; [reflexivity|].
      now rewrite (updateRoundStatus_getRound
                     _ _ _ _ (updateRoundEndTime_getRound _ _ _ _ Hround)).
    + split; [reflexivity|].
      now rewrite (updateRoundStatus_getRound _ _ _ round Hround).
  - intros ->. now split.
Qed.

Lemma putRoundStatus_stores_any_status_witness :
  statusCode (snd (run (putRoundStatus utcZone 4000 1 RoundStatus.writing) afterWinner))
  = 200 /\
  option_map Round.status
    (getRound 1 (fst (run (putRoundStatus utcZone 4000 1 RoundStatus.writing) afterWinner)))
  = Some RoundStatus.writing.
Proof.
  pose proof (putRoundStatus_stores_any_status
                utcZone 4000 1 RoundStatus.writing afterWinner) as H.
  cbv zeta in H. destruct H as [H _].
  apply (H (Round.mk 1 1 1 2 (generateRandomWords firstIndex 5)
                     RoundStatus.completed 300 (Some 302000) (Some 1))).
  reflexivity.
Defined.

(** C1 fails on the code: a completed round is put back to setup, and a
    round in setup is moved straight to completed; both requests succeed. *)
Lemma completed_round_reopened_and_states_skipped :
  (option_map Round.status (getRound 1 afterWinner)
   = Some RoundStatus.completed /\
   statusCode (snd (run (putRoundStatus utcZone 4000 1 RoundStatus.setup) afterWinner))
   = 200 /\
   option_map Round.status
     (getRound 1 (fst (run (putRoundStatus utcZone 4000 1 RoundStatus.setup) afterWinner)))
   = Some RoundStatus.setup) /\
  (option_map Round.status (getRound 1 afterCreate) = Some RoundStatus.setup /\
   statusCode (snd (run (putRoundStatus utcZone 4000 1 RoundStatus.completed) afterCreate))
   = 200 /\
   option_map Round.status
     (getRound 1 (fst (run (putRoundStatus utcZone 4000 1 RoundStatus.completed) afterCreate)))
   = Some RoundStatus.completed).
Proof. vm_compute. repeat split. Qed.

(** ** Editing a poem *)

(** C4, as the code has it.  The content request overwrites the content of
    every existing poem, whatever the status of its round and whether or
    not the poem is submitted; the submitted flag, the timestamp and the
    rounds stay as they were.  Submission does not freeze the content. *)
Theorem putPoem_overwrites_any_poem
        (poemId : Z) (content : JsString) (s : MemStorage) (poem : Poem.t) :
  getPoem poemId s = Some poem ->
  let s' := fst (run (putPoem poemId content) s) in
  let response := snd (run (putPoem poemId content) s) in
  statusCode response = 200 /\
  getPoem poemId s'
  = Some (Poem.mk (Poem.id poem) (Poem.roundId poem) (Poem.playerId poem)
                  content (Poem.submitted poem) (Poem.submittedAt poem)) /\
  rounds s' = rounds s.
Proof.
  intros Hpoem. unfold putPoem. route.
  unfold updatePoem, getPoem in *. rewrite Hpoem. cbn.
  repeat split. apply JsMapFacts.get_set_eq.
Qed.

Lemma putPoem_overwrites_any_poem_witness :
  option_map Poem.content
    (getPoem 1 (fst (run (putPoem 1 (utf16 "rewritten")) afterSubmit)))
  = Some (utf16 "rewritten") /\
  option_map Poem.submitted
    (getPoem 1 (fst (run (putPoem 1 (utf16 "rewritten")) afterSubmit)))
  = Some true.
Proof.
  pose proof (putPoem_overwrites_any_poem
                1 (utf16 "rewritten") afterSubmit
                (Poem.mk 1 1 1 (utf16 "the moon is a silver door") true
                         (Some 3000))
                eq_refl) as H.
  cbv zeta in H. destruct H as (_ & H & _).
  rewrite H. split; reflexivity.
Defined.

(** C4 fails on the code: poem 1 is submitted and its round is in judging,
    and the content request still replaces its text. *)
Lemma submitted_poem_rewritten :
  option_map Poem.submitted (getPoem 1 afterSubmit) = Some true /\
  option_map Round.status (getRound 1 afterSubmit) = Some RoundStatus.judging /\
  option_map Poem.content (getPoem 1 afterSubmit)
  = Some (utf16 "the moon is a silver door") /\
  statusCode (snd (run (putPoem 1 (utf16 "rewritten")) afterSubmit)) = 200 /\
  option_map Poem.content
    (getPoem 1 (fst (run (putPoem 1 (utf16 "rewritten")) afterSubmit)))
  = Some (utf16 "rewritten").
Proof. vm_compute. repeat split. Qed.

(** ** Stepping through a handler *)

Lemma bind_query {A B} (f : MemStorage -> A) (k : A -> Route B) (s : MemStorage) :
  bind (query f) k s = k (f s) s.
Proof. reflexivity. Qed.

Lemma bind_exec {A B} (f : MemStorage -> MemStorage * A) (k : A -> Route B)
      (s : MemStorage) :
  bind (exec f) k s = k (snd (f s)) (fst (f s)).
Proof. reflexivity. Qed.

Lemma bind_done {B} (m : Route unit) (k : unit -> Route B) (s : MemStorage) :
  snd (m s) = inr tt -> bind m k s = k tt (fst (m s)).
Proof. unfold bind. now intros ->. Qed.

(** ** The loops that create players and poems *)

Section CreatePoems.

Context {A : Type}.
Variable roundId : Z.
Variable writes : A -> bool.
Variable author : A -> Z.

Lemma createPoemsLoop_cons (x : A) (l : list A) (s : MemStorage) :
  createPoemsLoop roundId writes author (x :: l) s
  = createPoemsLoop roundId writes author l
      (if writes x then fst (createPoem roundId (author x) [] s) else s).
Proof.
  unfold createPoemsLoop. cbn [forEach]. unfold bind at 1, when.
  destruct (writes x); reflexivity.
Qed.

Lemma createPoemsLoop_spec (l : list A) (s : MemStorage) :
  let s' := fst (createPoemsLoop roundId writes author l s) in
  snd (createPoemsLoop roundId writes author l s) = inr tt /\
  sameButPoems s s' /\
  poemIdCounter s' = poemIdCounter s + Z.of_nat (length (filter writes l)) /\
  (forall k, k < poemIdCounter s -> getPoem k s' = getPoem k s) /\
  (forall i x,
      nth_error (filter writes l) i = Some x ->
      getPoem (poemIdCounter s + Z.of_nat i) s'
      = Some (Poem.mk (poemIdCounter s + Z.of_nat i) roundId (author x) []
                      false None)).
Proof.
  revert s. induction l as [|x l IH]; intros s.
  - cbn. repeat split; try lia.
    intros [|i] y; discriminate.
  - cbv zeta. rewrite createPoemsLoop_cons. cbn [filter].
    destruct (writes x) eqn:Hx.
    + set (s1 := fst (createPoem roundId (author x) [] s)).
      destruct (IH s1) as (Hdone & Hframe & Hcount & Hold & Hnew).
      assert (Hc1 : poemIdCounter s1 = poemIdCounter s + 1) by reflexivity.
      split; [exact Hdone|]. split; [|split; [|split]].
      * unfold sameButPoems in *. subst s1. simpl in Hframe. exact Hframe.
      * rewrite Hcount, Hc1. cbn [length]. lia.
      * intros k Hk. rewrite Hold by lia.
        unfold getPoem. subst s1. simpl.
        apply JsMapFacts.get_set_neq. lia.
      * intros [|i] y Hy; cbn [nth_error] in Hy.
        -- inversion Hy; subst y. rewrite Z.add_0_r.
           rewrite Hold by lia.
           unfold getPoem. subst s1. simpl. apply JsMapFacts.get_set_eq.
        -- replace (poemIdCounter s + Z.of_nat (S i))
             with (poemIdCounter s1 + Z.of_nat i) by lia.
           now apply Hnew.
    + exact (IH s).
Qed.

End CreatePoems.

Lemma addPlayersLoop_cons (gameId : Z) (ip : nat * Z) (ips : list (nat * Z))
      (s : MemStorage) :
  addPlayersLoop gameId (ip :: ips) s
  = addPlayersLoop gameId ips
      (fst (addPlayerToGame gameId (snd ip) (Nat.eqb (fst ip) 0) s)).
Proof. reflexivity. Qed.

Lemma addPlayersLoop_spec (gameId : Z) (ips : list (nat * Z)) (s : MemStorage) :
  let s' := fst (addPlayersLoop gameId ips s) in
  snd (addPlayersLoop gameId ips s) = inr tt /\
  sameButPlayers s s' /\
  playerIdCounter s' = playerIdCounter s + Z.of_nat (length ips) /\
  (forall k, k < playerIdCounter s ->
             JsMap.get k (players s') = JsMap.get k (players s)) /\
  (forall j ip,
      nth_error ips j = Some ip ->
      JsMap.get (playerIdCounter s + Z.of_nat j) (players s')
      = Some (Player.mk (playerIdCounter s + Z.of_nat j) gameId (snd ip) 0
                        (Nat.eqb (fst ip) 0))).
Proof.
  revert s. induction ips as [|ip ips IH]; intros s.
  - cbn. repeat split; try lia.
    intros [|j] y; discriminate.
  - cbv zeta. rewrite addPlayersLoop_cons.
    set (s1 := fst (addPlayerToGame gameId (snd ip) (Nat.eqb (fst ip) 0) s)).
    destruct (IH s1) as (Hdone & Hframe & Hcount & Hold & Hnew).
    assert (Hc1 : playerIdCounter s1 = playerIdCounter s + 1) by reflexivity.
    split; [exact Hdone|]. split; [|split; [|split]].
    + unfold sameButPlayers in *. subst s1. simpl in Hframe. exact Hframe.
    + rewrite Hcount, Hc1. cbn [length]. lia.
    + intros k Hk. rewrite Hold by lia.
      subst s1. simpl. apply JsMapFacts.get_set_neq. lia.
    + intros [|j] y Hy; cbn [nth_error] in Hy.
      * inversion Hy; subst y. rewrite Z.add_0_r.
        rewrite Hold by lia.
        subst s1. simpl. rewrite orb_false_r. apply JsMapFacts.get_set_eq.
      * replace (playerIdCounter s + Z.of_nat (S j))
          with (playerIdCounter s1 + Z.of_nat j) by lia.
        now apply Hnew.
Qed.

(** ** Selecting the winner *)

Lemma setRoundWinner_frame (id winnerId : Z) (s : MemStorage) :
  players (fst (setRoundWinner id winnerId s)) = players s /\
  poems (fst (setRoundWinner id winnerId s)) = poems s /\
  games (fst (setRoundWinner id winnerId s)) = games s.
Proof. unfold setRoundWinner. now destruct (JsMap.get id (rounds s)). Qed.

Lemma setRoundWinner_getRound (id winnerId : Z) (s : MemStorage) (round : Round.t) :
  getRound id s = Some round ->
  getRound id (fst (setRoundWinner id winnerId s))
  = Some (Round.mk (Round.id round) (Round.gameId round)
                   (Round.roundNumber round) (Round.judgeId round)
                   (Round.words round) RoundStatus.completed
                   (Round.timeLimit round) (Round.endTime round)
                   (Some winnerId)).
Proof.
  unfold getRound, setRoundWinner. intros ->. simpl.
  apply JsMapFacts.get_set_eq.
Qed.

Lemma updatePlayerScore_frame (playerId increment : Z) (s : MemStorage) :
  rounds (fst (updatePlayerScore playerId increment s)) = rounds s /\
  poems (fst (updatePlayerScore playerId increment s)) = poems s /\
  games (fst (updatePlayerScore playerId increment s)) = games s.
Proof. unfold updatePlayerScore. now destruct (JsMap.get playerId (players s)). Qed.

Lemma updatePlayerScore_players (playerId increment : Z) (s : MemStorage) :
  (forall player,
      JsMap.get playerId (players s) = Some player ->
      JsMap.get playerId (players (fst (updatePlayerScore playerId increment s)))
      = Some (Player.mk (Player.id player) (Player.gameId player)
                        (Player.userId player)
                        (Player.score player + increment)
                        (Player.isHost player))) /\
  (JsMap.get playerId (players s) = None ->
   fst (updatePlayerScore playerId increment s) = s) /\
  (forall k, k <> playerId ->
             JsMap.get k (players (fst (updatePlayerScore playerId increment s)))
             = JsMap.get k (players s)).
Proof.
  unfold updatePlayerScore. repeat split.
  - intros player ->. simpl. apply JsMapFacts.get_set_eq.
  - now intros ->.
  - intros k Hk. destruct (JsMap.get playerId (players s)); simpl; [|reflexivity].
    now apply JsMapFacts.get_set_neq.
Qed.

(** What one winner request does, whatever the status of the round and
    whichever round the poem belongs to: the round is completed with
    [poem.playerId] as its winner, and the player record stored under the
    key [poem.playerId], if there is one, gains a point. *)
Lemma postRoundWinner_effect
      (roundId poemId : Z) (s : MemStorage) (poem : Poem.t) (round : Round.t) :
  getPoem poemId s = Some poem ->
  getRound roundId s = Some round ->
  let s' := fst (run (postRoundWinner roundId poemId) s) in
  let response := snd (run (postRoundWinner roundId poemId) s) in
  statusCode response = 200 /\
  getRound roundId s'
  = Some (Round.mk (Round.id round) (Round.gameId round)
                   (Round.roundNumber round) (Round.judgeId round)
                   (Round.words round) RoundStatus.completed
                   (Round.timeLimit round) (Round.endTime round)
                   (Some (Poem.playerId poem))) /\
  poems s' = poems s /\
  (forall player,
      JsMap.get (Poem.playerId poem) (players s) = Some player ->
      JsMap.get (Poem.playerId poem) (players s')
      = Some (Player.mk (Player.id player) (Player.gameId player)
                        (Player.userId player) (Player.score player + 1)
                        (Player.isHost player))) /\
  (JsMap.get (Poem.playerId poem) (players s) = None ->
   players s' = players s) /\
  (forall k, k <> Poem.playerId poem ->
             JsMap.get k (players s') = JsMap.get k (players s)).
Proof.
  intros Hpoem Hround. unfold postRoundWinner. route.
  rewrite Hpoem. cbn [fst snd]. rewrite Hround. cbn [fst snd].
  set (s1 := fst (setRoundWinner roundId (Poem.playerId poem) s)).
  destruct (setRoundWinner_frame roundId (Poem.playerId poem) s)
    as (Hpl1 & Hpo1 & _). fold s1 in Hpl1, Hpo1.
  destruct (updatePlayerScore_frame (Poem.playerId poem) 1 s1)
    as (Hr2 & Hpo2 & _).
  destruct (updatePlayerScore_players (Poem.playerId poem) 1 s1)
    as (Hhit & Hmiss & Hother).
  rewrite Hpl1 in Hhit, Hmiss, Hother.
  split; [reflexivity|]. split; [|split; [|split; [|split]]].
  - unfold getRound. rewrite Hr2.
    now apply setRoundWinner_getRound.
  - now rewrite Hpo2.
  - exact Hhit.
  - intros Hnone. rewrite (Hmiss Hnone). exact Hpl1.
  - exact Hother.
Qed.

(** Two winner requests for the same poem both succeed, the second one on
    a round that is already completed, and the record stored under
    [poem.playerId] gains two points. *)
Lemma postRoundWinner_twice
      (roundId poemId : Z) (s : MemStorage) (poem : Poem.t) (round : Round.t)
      (player : Player.t) :
  getPoem poemId s = Some poem ->
  getRound roundId s = Some round ->
  JsMap.get (Poem.playerId poem) (players s) = Some player ->
  let s1 := fst (run (postRoundWinner roundId poemId) s) in
  let s2 := fst (run (postRoundWinner roundId poemId) s1) in
  option_map Round.status (getRound roundId s1) = Some RoundStatus.completed /\
  statusCode (snd (run (postRoundWinner roundId poemId) s1)) = 200 /\
  getPlayerScore (Poem.playerId poem) s2
  = getPlayerScore (Poem.playerId poem) s + 2.
Proof.
  intros Hpoem Hround Hplayer.
  destruct (postRoundWinner_effect roundId poemId s poem round Hpoem Hround)
    as (_ & Hround1 & Hpoems1 & Hhit1 & _).
  cbv zeta.
  set (s1 := fst (run (postRoundWinner roundId poemId) s)) in *.
  assert (Hpoem1 : getPoem poemId s1 = Some poem).
  { unfold getPoem. now rewrite Hpoems1. }
  destruct (postRoundWinner_effect roundId poemId s1 poem _ Hpoem1 Hround1)
    as (Hok2 & _ & _ & Hhit2 & _).
  split; [now rewrite Hround1|]. split; [exact Hok2|].
  unfold getPlayerScore.
  rewrite (Hhit2 _ (Hhit1 _ Hplayer)), Hplayer. simpl. lia.
Qed.

(** C2 on a round of a new game.  Sarah (user 4) hosts a game with Michael
    (user 5) on a fresh server: Michael is player record 2 and his poem
    carries his user id 5, under which no player record is stored.  The
    round is in judging; the winner request for his poem succeeds and
    completes the round, and no score moves.  When Emma (user 2) hosts
    John (user 1), John's poem carries 1, the id of Emma's record: the
    point goes to the judge and John stays at 0. *)
Theorem winner_point_misses_the_author :
  (let s := roundInJudging [4; 5] in
   let s' := fst (run (postRoundWinner 1 1) s) in
   option_map Round.status (getRound 1 s) = Some RoundStatus.judging /\
   JsMap.get 2 (players s) = Some (Player.mk 2 1 5 0 false) /\
   option_map Poem.playerId (getPoem 1 s) = Some 5 /\
   statusCode (snd (run (postRoundWinner 1 1) s)) = 200 /\
   option_map Round.status (getRound 1 s') = Some RoundStatus.completed /\
   option_map Round.winnerId (getRound 1 s') = Some (Some 5) /\
   getPlayerScore 2 s' = 0 /\
   players s' = players s) /\
  (let s := roundInJudging [2; 1] in
   let s' := fst (run (postRoundWinner 1 1) s) in
   option_map Round.status (getRound 1 s) = Some RoundStatus.judging /\
   JsMap.get 1 (players s) = Some (Player.mk 1 1 2 0 true) /\
   JsMap.get 2 (players s) = Some (Player.mk 2 1 1 0 false) /\
   option_map Round.judgeId (getRound 1 s) = Some 2 /\
   option_map Poem.playerId (getPoem 1 s) = Some 1 /\
   statusCode (snd (run (postRoundWinner 1 1) s)) = 200 /\
   getPlayerScore 2 s' = 0 /\
   getPlayerScore 1 s' = 1).
Proof. vm_compute. repeat split. Qed.

(** C3 on the same rounds.  The second winner request succeeds on the
    completed round, yet the author of the poem has no point after the two
    requests: with Sarah and Michael no score has moved, with Emma and
    John the two points are on the judge's record. *)
Theorem double_winner_misses_the_author :
  (let s := roundInJudging [4; 5] in
   let s1 := fst (run (postRoundWinner 1 1) s) in
   let s2 := fst (run (postRoundWinner 1 1) s1) in
   option_map Round.status (getRound 1 s1) = Some RoundStatus.completed /\
   statusCode (snd (run (postRoundWinner 1 1) s1)) = 200 /\
   getPlayerScore 2 s2 = 0 /\
   players s2 = players s) /\
  (let s := roundInJudging [2; 1] in
   let s1 := fst (run (postRoundWinner 1 1) s) in
   let s2 := fst (run (postRoundWinner 1 1) s1) in
   option_map Round.status (getRound 1 s1) = Some RoundStatus.completed /\
   statusCode (snd (run (postRoundWinner 1 1) s1)) = 200 /\
   getPlayerScore 2 s2 = 0 /\
   getPlayerScore 1 s2 = 2).
Proof. vm_compute. repeat split. Qed.

(** ** Starting the next round *)

Lemma createRound_frame (gameId roundNumber judgeId : Z) (words : list string)
      (timeLimit : Z) (s : MemStorage) :
  let s' := fst (createRound gameId roundNumber judgeId words timeLimit s) in
  games s' = games s /\ players s' = players s /\ poems s' = poems s /\
  poemIdCounter s' = poemIdCounter s /\
  snd (createRound gameId roundNumber judgeId words timeLimit s)
  = Round.mk (roundIdCounter s) gameId roundNumber judgeId words
             RoundStatus.setup timeLimit None None /\
  getRound (roundIdCounter s) s'
  = Some (Round.mk (roundIdCounter s) gameId roundNumber judgeId words
                   RoundStatus.setup timeLimit None None).
Proof.
  unfold createRound, getRound. simpl. repeat split.
  apply JsMapFacts.get_set_eq.
Qed.

(** The next-round request on a game that is not exhausted and whose
    roster yields a judge: the game moves to the next round and the next
    judge index, the new round is judged by the user of the player at that
    index, and every other player of the roster gets an empty poem that
    carries the id of the player record. *)
Lemma postGameNextRound_started
      (randomIndex : RandomSource) (gameId : Z) (s : MemStorage)
      (game : Game.t) (nextJudgeIndex : Z) (judge : Player.t) :
  getGame gameId s = Some game ->
  Game.currentRound game < Game.totalRounds game ->
  nextJudge game (getPlayersByGame gameId s) = inr (nextJudgeIndex, judge) ->
  let s' := fst (run (postGameNextRound randomIndex gameId) s) in
  let response := snd (run (postGameNextRound randomIndex gameId) s) in
  let writers :=
    filter (fun player => negb (Player.userId player =? Player.userId judge))
           (getPlayersByGame gameId s) in
  statusCode response = 200 /\
  getGame gameId s'
  = Some (Game.mk (Game.id game) (Game.name game) (Game.createdBy game)
                  (Game.currentRound game + 1) (Game.totalRounds game)
                  nextJudgeIndex (Game.status game) (Game.createdAt game)) /\
  getRound (roundIdCounter s) s'
  = Some (Round.mk (roundIdCounter s) gameId (Game.currentRound game + 1)
                   (Player.userId judge) (generateRandomWords randomIndex 5)
                   RoundStatus.setup 300 None None) /\
  players s' = players s /\
  poemIdCounter s' = poemIdCounter s + Z.of_nat (length writers) /\
  (forall i player,
      nth_error writers i = Some player ->
      getPoem (poemIdCounter s + Z.of_nat i) s'
      = Some (Poem.mk (poemIdCounter s + Z.of_nat i) (roundIdCounter s)
                      (Player.id player) [] false None)).
Proof.
  intros Hgame Hmore Hjudge. cbv zeta.
  unfold postGameNextRound, run.
  rewrite bind_query, Hgame. cbv beta iota.
  apply Z.leb_gt in Hmore. rewrite Hmore.
  rewrite bind_query, Hjudge. cbv beta iota zeta.
  rewrite bind_exec, bind_exec.
  set (updates := mkGameUpdates None (Some (Game.currentRound game + 1))
                                (Some nextJudgeIndex)).
  set (s1 := fst (updateGame gameId updates s)).
  destruct (updateGame_frame gameId updates s)
    as (_ & Hpl1 & Hr1 & Hpo1 & Hrc1 & Hpc1 & _). fold s1 in Hpl1, Hr1, Hpo1, Hrc1, Hpc1.
  pose proof (updateGame_getGame gameId updates s game Hgame) as Hg1.
  fold s1 in Hg1.
  set (words := generateRandomWords randomIndex 5).
  destruct (createRound_frame gameId (Game.currentRound game + 1)
                              (Player.userId judge) words 300 s1)
    as (Hg2 & Hpl2 & Hpo2 & Hpc2 & Hnew & Hr2).
  set (s2 := fst (createRound gameId (Game.currentRound game + 1)
                              (Player.userId judge) words 300 s1)) in *.
  rewrite Hnew. cbn [Round.id].
  change (forEach (getPlayersByGame gameId s) _)
    with (createPoemsLoop (roundIdCounter s1)
            (fun player => negb (Player.userId player =? Player.userId judge))
            Player.id (getPlayersByGame gameId s)).
  destruct (createPoemsLoop_spec
              (roundIdCounter s1)
              (fun player => negb (Player.userId player =? Player.userId judge))
              Player.id (getPlayersByGame gameId s) s2)
    as (Hdone & Hframe & Hcount & _ & Hpoems).
  rewrite (bind_done _ _ _ Hdone), bind_query.
  unfold reply. cbn [fst snd].
  destruct Hframe as (_ & Hg3 & Hpl3 & Hr3 & _).
  split; [reflexivity|]. split; [|split; [|split; [|split]]].
  - unfold getGame in *. rewrite Hg3, Hg2. exact Hg1.
  - unfold getRound in *. rewrite Hr3, <- Hrc1. exact Hr2.
  - now rewrite Hpl3, Hpl2.
  - rewrite Hcount, Hpc2, Hpc1. reflexivity.
  - intros i player Hi. rewrite <- Hrc1, <- Hpc1, <- Hpc2.
    now apply Hpoems.
Qed.

Lemma nextJudge_small_roster (game : Game.t) (players : list Player.t) :
  Z.of_nat (length players) < 2 ->
  nextJudge game players = inl (mkResponse 400 (Message "Not enough players")).
Proof.
  intros Hsmall. unfold nextJudge.
  apply Z.ltb_lt in Hsmall. now rewrite Hsmall.
Qed.

Lemma nextJudge_next (game : Game.t) (players : list Player.t) :
  2 <= Z.of_nat (length players) ->
  0 <= Game.currentJudgeIndex game ->
  exists judge,
    nth_error players
              (Z.to_nat ((Game.currentJudgeIndex game + 1)
                           mod Z.of_nat (length players))) = Some judge /\
    nextJudge game players
    = inr ((Game.currentJudgeIndex game + 1) mod Z.of_nat (length players),
           judge).
Proof.
  intros Hsize Hidx. unfold nextJudge.
  assert (Hge : (Z.of_nat (length players) <? 2) = false)
    by (apply Z.ltb_ge; lia).
  rewrite Hge, Z.rem_mod_nonneg by lia.
  pose proof (Z.mod_pos_bound (Game.currentJudgeIndex game + 1)
                              (Z.of_nat (length players))) as Hbound.
  set (next := (Game.currentJudgeIndex game + 1) mod Z.of_nat (length players))
    in *.
  assert (Hpos : (next <? 0) = false) by (apply Z.ltb_ge; lia).
  rewrite Hpos.
  destruct (nth_error players (Z.to_nat next)) as [judge|] eqn:Hnth.
  - now exists judge.
  - apply nth_error_None in Hnth. lia.
Qed.

(** C8.  With a roster of at least two players and a judge index that is
    a roster position, the judge rotation yields the player at position
    [(currentJudgeIndex + 1) mod rosterSize]; on three players the index
    goes 0, 1, 2, 0.  With fewer than two players it fails with a
    validation error (400).  In the next-round request this means: a game
    with a roster below two is always refused with 400, and a game with
    rounds left stores the rotated index and gives the new round to the
    user of the player at that position. *)
Theorem nextJudge_rotates_through_roster
        (game : Game.t) (players : list Player.t) :
  let rosterSize := Z.of_nat (length players) in
  let next := (Game.currentJudgeIndex game + 1) mod rosterSize in
  (2 <= rosterSize -> 0 <= Game.currentJudgeIndex game ->
   exists judge,
     nth_error players (Z.to_nat next) = Some judge /\
     nextJudge game players = inr (next, judge)) /\
  (forall a b c,
      players = [a; b; c] ->
      (Game.currentJudgeIndex game = 0 -> nextJudge game players = inr (1, b)) /\
      (Game.currentJudgeIndex game = 1 -> nextJudge game players = inr (2, c)) /\
      (Game.currentJudgeIndex game = 2 -> nextJudge game players = inr (0, a))) /\
  (rosterSize < 2 ->
   exists response,
     nextJudge game players = inl response /\ ValidationError response) /\
  (forall randomIndex gameId s,
      getGame gameId s = Some game ->
      getPlayersByGame gameId s = players ->
      let s' := fst (run (postGameNextRound randomIndex gameId) s) in
      let response := snd (run (postGameNextRound randomIndex gameId) s) in
      (rosterSize < 2 -> ValidationError response) /\
      (2 <= rosterSize -> 0 <= Game.currentJudgeIndex game ->
       Game.currentRound game < Game.totalRounds game ->
       statusCode response = 200 /\
       option_map Game.currentJudgeIndex (getGame gameId s') = Some next /\
       option_map Round.judgeId (getRound (roundIdCounter s) s')
       = option_map Player.userId (nth_error players (Z.to_nat next)))).
Proof.
  cbv zeta. split; [|split; [|split]].
  - apply nextJudge_next.
  - intros a b c ->. unfold nextJudge. cbn [length Z.of_nat].
    repeat split; intros ->; reflexivity.
  - intros Hsmall. eexists. split.
    + now apply nextJudge_small_roster.
    + reflexivity.
  - intros randomIndex gameId s Hgame Hplayers. split.
    + intros Hsmall. unfold postGameNextRound, run.
      rewrite bind_query, Hgame. cbv beta iota.
      destruct (Game.totalRounds game <=? Game.currentRound game).
      * reflexivity.
      * rewrite bind_query, Hplayers.
        rewrite (nextJudge_small_roster game players Hsmall). reflexivity.
    + intros Hsize Hidx Hmore.
      destruct (nextJudge_next game players Hsize Hidx) as (judge & Hnth & Hjudge).
      rewrite <- Hplayers in Hjudge.
      destruct (postGameNextRound_started randomIndex gameId s game _ judge
                                          Hgame Hmore Hjudge)
        as (Hok & Hg & Hr & _).
      rewrite Hplayers in Hg.
      split; [exact Hok|]. rewrite Hg, Hr, Hnth. split; reflexivity.
Qed.

Lemma nextJudge_rotates_through_roster_witness :
  (option_map Game.currentJudgeIndex
     (getGame 1 (fst (run (postGameNextRound firstIndex 1) afterWinner)))
   = Some 1 /\
   option_map Round.judgeId
     (getRound 2 (fst (run (postGameNextRound firstIndex 1) afterWinner)))
   = Some 1) /\
  ValidationError (snd (run (postGameNextRound firstIndex 1) soloGame)).
Proof.
  split.
  - pose proof (nextJudge_rotates_through_roster
                  (Game.mk 1 "Poets" 2 1 3 0 GameStatus.waiting 1000)
                  [Player.mk 1 1 2 1 true; Player.mk 2 1 1 0 false]) as H.
    cbv zeta in H. destruct H as (_ & _ & _ & H).
    destruct (H firstIndex 1 afterWinner eq_refl eq_refl) as [_ Hrot].
    destruct Hrot as (_ & Hidx & Hjudge); [simpl; lia | simpl; lia | simpl; lia |].
    split; [exact Hidx | exact Hjudge].
  - pose proof (nextJudge_rotates_through_roster
                  (Game.mk 1 "Solo" 1 1 3 0 GameStatus.waiting 1000)
                  [Player.mk 1 1 1 0 true]) as H.
    cbv zeta in H. destruct H as (_ & _ & _ & H).
    destruct (H firstIndex 1 soloGame eq_refl eq_refl) as [Hsmall _].
    apply Hsmall. simpl. lia.
Defined.

(** ** Creating a game *)

Lemma nth_error_combine_seq {A} (l : list A) (start j : nat) (x : A) :
  nth_error l j = Some x ->
  nth_error (combine (seq start (length l)) l) j = Some ((start + j)%nat, x).
Proof.
  revert start j. induction l as [|y l IH]; intros start [|j] Hj;
    cbn in Hj |- *; try discriminate.
  - inversion Hj. now rewrite Nat.add_0_r.
  - rewrite (IH (S start) j Hj). f_equal. f_equal. lia.
Qed.

(** The create-game request, once validated: one player record per user
    id of the request, in order; a first round judged by the host; and an
    empty poem for every user id other than the host's, carrying that user
    id. *)
Lemma postGames_created
      (randomIndex : RandomSource) (now : Z) (name : string) (totalRounds : Z)
      (playerIds : list Z) (s : MemStorage) :
  validCreateGameRequest name totalRounds playerIds = true ->
  let s' := fst (run (postGames randomIndex now name totalRounds playerIds) s) in
  let response :=
    snd (run (postGames randomIndex now name totalRounds playerIds) s) in
  let hostId := nth 0 playerIds 0 in
  let writers := filter (fun playerId => negb (playerId =? hostId)) playerIds in
  statusCode response = 201 /\
  (forall j userId,
      nth_error playerIds j = Some userId ->
      JsMap.get (playerIdCounter s + Z.of_nat j) (players s')
      = Some (Player.mk (playerIdCounter s + Z.of_nat j) (gameIdCounter s)
                        userId 0 (Nat.eqb j 0))) /\
  getRound (roundIdCounter s) s'
  = Some (Round.mk (roundIdCounter s) (gameIdCounter s) 1 hostId
                   (generateRandomWords randomIndex 5)
                   RoundStatus.setup 300 None None) /\
  poemIdCounter s' = poemIdCounter s + Z.of_nat (length writers) /\
  (forall i userId,
      nth_error writers i = Some userId ->
      getPoem (poemIdCounter s + Z.of_nat i) s'
      = Some (Poem.mk (poemIdCounter s + Z.of_nat i) (roundIdCounter s)
                      userId [] false None)).
Proof.
  intros Hvalid. cbv zeta.
  unfold postGames, run. rewrite Hvalid. cbn [negb]. cbv zeta.
  rewrite bind_exec. cbn [createGame snd Game.id].
  set (hostId := nth 0 playerIds 0).
  set (s1 := fst (createGame now name hostId totalRounds s)).
  change (forEach (combine (seq 0 (length playerIds)) playerIds) _)
    with (addPlayersLoop (gameIdCounter s)
                         (combine (seq 0 (length playerIds)) playerIds)).
  destruct (addPlayersLoop_spec
              (gameIdCounter s)
              (combine (seq 0 (length playerIds)) playerIds) s1)
    as (Hdone1 & Hframe1 & _ & _ & Hplayers).
  rewrite (bind_done _ _ _ Hdone1), bind_exec.
  set (s2 := fst (addPlayersLoop
                    (gameIdCounter s)
                    (combine (seq 0 (length playerIds)) playerIds) s1)) in *.
  destruct Hframe1 as (_ & _ & Hr2 & Hpo2 & _ & _ & Hrc2 & Hpc2).
  set (words := generateRandomWords randomIndex 5).
  destruct (createRound_frame (gameIdCounter s) 1 hostId words 300 s2)
    as (_ & Hpl3 & Hpo3 & Hpc3 & Hnew & Hr3).
  set (s3 := fst (createRound (gameIdCounter s) 1 hostId words 300 s2)) in *.
  rewrite Hnew. cbn [Round.id].
  change (forEach playerIds _)
    with (createPoemsLoop (roundIdCounter s2)
                          (fun playerId => negb (playerId =? hostId))
                          (fun playerId : Z => playerId) playerIds).
  destruct (createPoemsLoop_spec
              (roundIdCounter s2)
              (fun playerId => negb (playerId =? hostId))
              (fun playerId : Z => playerId) playerIds s3)
    as (Hdone4 & Hframe4 & Hcount4 & _ & Hpoems4).
  rewrite (bind_done _ _ _ Hdone4), bind_query.
  unfold reply. cbn [fst snd].
  destruct Hframe4 as (_ & _ & Hpl4 & Hr4 & _).
  assert (Hrc : roundIdCounter s2 = roundIdCounter s) by exact Hrc2.
  assert (Hpc : poemIdCounter s3 = poemIdCounter s)
    by (rewrite Hpc3; exact Hpc2).
  split; [reflexivity|]. split; [|split; [|split]].
  - intros j userId Hj. rewrite Hpl4, Hpl3.
    apply (nth_error_combine_seq playerIds 0 j userId) in Hj.
    exact (Hplayers j _ Hj).
  - unfold getRound in *. rewrite Hr4, <- Hrc. exact Hr3.
  - rewrite Hcount4, Hpc. reflexivity.
  - intros i userId Hi. rewrite <- Hrc, <- Hpc. now apply Hpoems4.
Qed.

(** ** The two kinds of id in [poem.playerId] *)

(** C5.  A game-creation request makes the [j]-th user id of the request
    the [userId] of a new player record and gives every user other than
    the host an empty poem whose [playerId] is that user id.  A next-round
    request gives every player of the roster other than the judge an empty
    poem whose [playerId] is the id of the player record.  A winner
    request looks only at the number: the record stored under the key
    [poem.playerId] gains one point if there is such a record, every
    record under another key is as before, and without such a record the
    players are as before. *)
Theorem poem_playerId_user_id_or_record_id
        (randomIndex : RandomSource) (s : MemStorage) :
  (forall now name totalRounds playerIds,
      validCreateGameRequest name totalRounds playerIds = true ->
      let s' :=
        fst (run (postGames randomIndex now name totalRounds playerIds) s) in
      let hostId := nth 0 playerIds 0 in
      let writers :=
        filter (fun playerId => negb (playerId =? hostId)) playerIds in
      (forall j userId,
          nth_error playerIds j = Some userId ->
          JsMap.get (playerIdCounter s + Z.of_nat j) (players s')
          = Some (Player.mk (playerIdCounter s + Z.of_nat j) (gameIdCounter s)
                            userId 0 (Nat.eqb j 0))) /\
      poemIdCounter s' = poemIdCounter s + Z.of_nat (length writers) /\
      (forall i userId,
          nth_error writers i = Some userId ->
          getPoem (poemIdCounter s + Z.of_nat i) s'
          = Some (Poem.mk (poemIdCounter s + Z.of_nat i) (roundIdCounter s)
                          userId [] false None))) /\
  (forall gameId game nextJudgeIndex judge,
      getGame gameId s = Some game ->
      Game.currentRound game < Game.totalRounds game ->
      nextJudge game (getPlayersByGame gameId s) = inr (nextJudgeIndex, judge) ->
      let s' := fst (run (postGameNextRound randomIndex gameId) s) in
      let writers :=
        filter (fun player => negb (Player.userId player =? Player.userId judge))
               (getPlayersByGame gameId s) in
      poemIdCounter s' = poemIdCounter s + Z.of_nat (length writers) /\
      (forall i player,
          nth_error writers i = Some player ->
          getPoem (poemIdCounter s + Z.of_nat i) s'
          = Some (Poem.mk (poemIdCounter s + Z.of_nat i) (roundIdCounter s)
                          (Player.id player) [] false None))) /\
  (forall roundId poemId poem round,
      getPoem poemId s = Some poem ->
      getRound roundId s = Some round ->
      let s' := fst (run (postRoundWinner roundId poemId) s) in
      (forall player,
          JsMap.get (Poem.playerId poem) (players s) = Some player ->
          JsMap.get (Poem.playerId poem) (players s')
          = Some (Player.mk (Player.id player) (Player.gameId player)
                            (Player.userId player) (Player.score player + 1)
                            (Player.isHost player))) /\
      (JsMap.get (Poem.playerId poem) (players s) = None ->
       players s' = players s) /\
      (forall k, k <> Poem.playerId poem ->
                 JsMap.get k (players s') = JsMap.get k (players s))).
Proof.
  split; [|split].
  - intros now name totalRounds playerIds Hvalid.
    destruct (postGames_created randomIndex now name totalRounds playerIds s
                                Hvalid)
      as (_ & Hplayers & _ & Hcount & Hpoems).
    cbv zeta. split; [exact Hplayers | split; [exact Hcount | exact Hpoems]].
  - intros gameId game nextJudgeIndex judge Hgame Hmore Hjudge.
    destruct (postGameNextRound_started randomIndex gameId s game
                                        nextJudgeIndex judge Hgame Hmore Hjudge)
      as (_ & _ & _ & _ & Hcount & Hpoems).
    cbv zeta. split; [exact Hcount | exact Hpoems].
  - intros roundId poemId poem round Hpoem Hround.
    destruct (postRoundWinner_effect roundId poemId s poem round Hpoem Hround)
      as (_ & _ & _ & Hhit & Hmiss & Hother).
    cbv zeta. split; [exact Hhit | split; [exact Hmiss | exact Hother]].
Qed.

Lemma poem_playerId_user_id_or_record_id_witness :
  (* first round: Michael is record 2 of user 5, his poem carries 5 *)
  (JsMap.get 2 (players (fst (run (postGames firstIndex 1000 "Poets" 3 [4; 5])
                                  newMemStorage)))
   = Some (Player.mk 2 1 5 0 false) /\
   getPoem 1 (fst (run (postGames firstIndex 1000 "Poets" 3 [4; 5])
                       newMemStorage))
   = Some (Poem.mk 1 1 5 [] false None)) /\
  (* second round: Sarah is record 1 of user 4, her poem carries 1 *)
  getPoem 2 secondRound = Some (Poem.mk 2 2 1 [] false None) /\
  (* the winner request on her poem reaches her record *)
  JsMap.get 1 (players (fst (run (postRoundWinner 2 2) secondRound)))
  = Some (Player.mk 1 1 4 1 true).
Proof.
  split; [|split].
  - pose proof (proj1 (poem_playerId_user_id_or_record_id
                         firstIndex newMemStorage)
                      1000 "Poets" 3 [4; 5] eq_refl) as H.
    cbv zeta in H. destruct H as (Hplayers & _ & Hpoems).
    split.
    + exact (Hplayers 1%nat 5 eq_refl).
    + exact (Hpoems 0%nat 5 eq_refl).
  - pose proof (proj1 (proj2 (poem_playerId_user_id_or_record_id
                                firstIndex firstRoundOver))
                      1 (Game.mk 1 "Poets" 4 1 3 0 GameStatus.waiting 1000)
                      1 (Player.mk 2 1 5 0 false) eq_refl) as H.
    cbv zeta in H. destruct H as (_ & Hpoems); [simpl; lia | reflexivity |].
    exact (Hpoems 0%nat (Player.mk 1 1 4 0 true) eq_refl).
  - pose proof (proj2 (proj2 (poem_playerId_user_id_or_record_id
                                firstIndex secondRound))
                      2 2 (Poem.mk 2 2 1 [] false None)
                      (Round.mk 2 1 2 5 (generateRandomWords firstIndex 5)
                                RoundStatus.setup 300 None None)
                      eq_refl eq_refl) as H.
    cbv zeta in H. destruct H as (Hhit & _).
    exact (Hhit (Player.mk 1 1 4 0 true) eq_refl).
Defined.

(** * Further properties of the store and the handlers *)

(** ** Maps in order *)

Lemma get_in {V} (k : Z) (v : V) (m : JsMap.t V) :
  JsMap.get k m = Some v -> In (k, v) m.
Proof.
  unfold JsMap.get.
  destruct (find (fun kv => fst kv =? k) m) as [[k' v']|] eqn:Hfind;
    [|discriminate].
  intros Heq. inversion Heq; subst v'.
  apply find_some in Hfind. destruct Hfind as [Hin Hk].
  apply Z.eqb_eq in Hk. simpl in Hk. now subst k'.
Qed.

Lemma in_get_some {V} (k : Z) (v : V) (m : JsMap.t V) :
  In (k, v) m -> exists v', JsMap.get k m = Some v'.
Proof.
  intros Hin. apply JsMapFacts.has_get. unfold JsMap.has.
  apply existsb_exists. exists (k, v). split; [exact Hin | apply Z.eqb_refl].
Qed.

Lemma mapOk_fresh {V} (idOf : V -> Z) (c : Z) (m : JsMap.t V) (k : Z) :
  mapOk idOf c m -> c <= k -> JsMap.get k m = None.
Proof.
  intros [_ Hok] Hk.
  destruct (JsMap.get k m) as [v|] eqn:Hget; [|reflexivity].
  apply get_in in Hget. apply Hok in Hget. lia.
Qed.

Lemma set_fresh {V} (k : Z) (v : V) (m : JsMap.t V) :
  JsMap.get k m = None -> JsMap.set k v m = m ++ [(k, v)].
Proof.
  intros Hnone. unfold JsMap.set.
  destruct (JsMap.has k m) eqn:Hhas; [|reflexivity].
  apply JsMapFacts.has_get in Hhas. destruct Hhas as [v' Hv']. congruence.
Qed.

Lemma set_keys {V} (k : Z) (v : V) (m : JsMap.t V) :
  JsMap.has k m = true -> map fst (JsMap.set k v m) = map fst m.
Proof.
  intros Hhas. unfold JsMap.set. rewrite Hhas. rewrite map_map.
  apply map_ext_in. intros [k' v'] _. simpl.
  destruct (k' =? k) eqn:Hk; [|reflexivity].
  simpl. symmetry. now apply Z.eqb_eq.
Qed.

Lemma mapOk_set_fresh {V} (idOf : V -> Z) (c : Z) (m : JsMap.t V) (v : V) :
  mapOk idOf c m -> idOf v = c -> mapOk idOf (c + 1) (JsMap.set c v m).
Proof.
  intros Hok Hid.
  pose proof (mapOk_fresh idOf c m c Hok (Z.le_refl c)) as Hnone.
  rewrite (set_fresh c v m Hnone).
  destruct Hok as [Hnd Hok]. split.
  - rewrite map_app. simpl.
    apply NoDup_app; [exact Hnd | repeat constructor; intros [] | ].
    intros k Hk [<- | []].
    apply in_map_iff in Hk. destruct Hk as [[k' v'] [Hfst Hin]].
    simpl in Hfst. subst k'. apply Hok in Hin. lia.
  - intros k v' Hin. apply in_app_or in Hin. destruct Hin as [Hin | [Heq | []]].
    + apply Hok in Hin. split; [tauto | lia].
    + inversion Heq; subst. split; [reflexivity | lia].
Qed.

Lemma mapOk_set_update {V} (idOf : V -> Z) (c : Z) (m : JsMap.t V)
      (k : Z) (old v : V) :
  mapOk idOf c m -> JsMap.get k m = Some old -> idOf v = idOf old ->
  mapOk idOf c (JsMap.set k v m).
Proof.
  intros [Hnd Hok] Hget Hid.
  pose proof (get_in k old m Hget) as Hin. apply Hok in Hin.
  split.
  - rewrite set_keys; [exact Hnd|].
    apply JsMapFacts.has_get. now exists old.
  - intros k' v' Hin'. apply JsMapFacts.in_set in Hin'.
    destruct Hin' as [[-> ->] | [_ Hold]].
    + split; [lia | tauto].
    + now apply Hok.
Qed.

(** ** Invariants and relations carried through a handler *)

Section Respects.

Variable P : MemStorage -> Prop.
Variable R : MemStorage -> MemStorage -> Prop.
Hypothesis R_refl : forall s, R s s.
Hypothesis R_trans : forall s1 s2 s3, R s1 s2 -> R s2 s3 -> R s1 s3.

Lemma respects_ret {A} (a : A) : respects P R (ret a).
Proof. intros s Hs. now split. Qed.

Lemma respects_reply {A} (code : Z) (b : Body) : respects P R (@reply A code b).
Proof. intros s Hs. now split. Qed.

Lemma respects_early {A} (response : Response) :
  respects P R (fun s : MemStorage => (s, @inl Response A response)).
Proof. intros s Hs. now split. Qed.

Lemma respects_query {A} (f : MemStorage -> A) : respects P R (query f).
Proof. intros s Hs. now split. Qed.

Lemma respects_bind {A B} (m : Route A) (k : A -> Route B) :
  respects P R m -> (forall a, respects P R (k a)) -> respects P R (bind m k).
Proof.
  intros Hm Hk s Hs. unfold bind.
  destruct (Hm s Hs) as [HP HR].
  destruct (snd (m s)) as [response | a]; cbn [fst].
  - now split.
  - destruct (Hk a (fst (m s)) HP) as [HP' HR'].
    split; [exact HP' | now apply R_trans with (fst (m s))].
Qed.

Lemma respects_when (b : bool) (m : Route unit) :
  respects P R m -> respects P R (when b m).
Proof. destruct b; [trivial | intros _; apply respects_ret]. Qed.

Lemma respects_forEach {A} (l : list A) (f : A -> Route unit) :
  (forall x, respects P R (f x)) -> respects P R (forEach l f).
Proof.
  intros Hf. induction l as [|x l IH]; cbn [forEach].
  - apply respects_ret.
  - apply respects_bind; [apply Hf | intros _; exact IH].
Qed.

Lemma respects_run (m : Route Response) (s : MemStorage) :
  respects P R m -> P s -> P (fst (run m s)) /\ R s (fst (run m s)).
Proof. intros Hm Hs. exact (Hm s Hs). Qed.

End Respects.

(** ** Every store operation keeps the store in order and lowers no score *)

Lemma scoresGrow_refl (s : MemStorage) : scoresGrow s s.
Proof. intros k. lia. Qed.

Lemma scoresGrow_trans (s1 s2 s3 : MemStorage) :
  scoresGrow s1 s2 -> scoresGrow s2 s3 -> scoresGrow s1 s3.
Proof. intros H12 H23 k. specialize (H12 k). specialize (H23 k). lia. Qed.

Lemma scoresGrow_same_players (s s' : MemStorage) :
  players s' = players s -> scoresGrow s s'.
Proof. intros Heq k. unfold getPlayerScore. rewrite Heq. lia. Qed.

(** An operation that rewrites a record found under its key. *)
Ltac keeps_order :=
  unfold wellFormed in *; cbn;
  repeat match goal with H : _ /\ _ |- _ => destruct H end;
  split; [|split; [|split; [|split]]];
  first [ assumption
        | solve [eapply mapOk_set_update; eauto]
        | solve [apply mapOk_set_fresh; [assumption | reflexivity]] ].

Lemma createUser_respects (username password : string) :
  respects wellFormed scoresGrow (exec (createUser username password)).
Proof.
  intros s Hs. unfold exec, createUser. cbn [fst]. split.
  - keeps_order.
  - now apply scoresGrow_same_players.
Qed.

Lemma createGame_respects (now : Z) (name : string) (createdBy totalRounds : Z) :
  respects wellFormed scoresGrow
           (exec (createGame now name createdBy totalRounds)).
Proof.
  intros s Hs. unfold exec, createGame. cbn [fst]. split.
  - keeps_order.
  - now apply scoresGrow_same_players.
Qed.

Lemma updateGame_respects (id : Z) (updates : GameUpdates) :
  respects wellFormed scoresGrow (exec (updateGame id updates)).
Proof.
  intros s Hs. unfold exec, updateGame. cbn [fst].
  destruct (JsMap.get id (games s)) as [game|] eqn:Hget; cbn [fst].
  - split; [keeps_order | now apply scoresGrow_same_players].
  - split; [exact Hs | apply scoresGrow_refl].
Qed.

Lemma addPlayerToGame_respects (gameId userId : Z) (isHost : bool) :
  respects wellFormed scoresGrow (exec (addPlayerToGame gameId userId isHost)).
Proof.
  intros s Hs. unfold exec, addPlayerToGame. cbn [fst]. split.
  - keeps_order.
  - intros k. unfold getPlayerScore. cbn [players with_players].
    destruct Hs as (_ & _ & Hplayers & _).
    destruct (Z.eq_dec k (playerIdCounter s)) as [-> | Hne].
    + rewrite JsMapFacts.get_set_eq.
      rewrite (mapOk_fresh _ _ _ _ Hplayers (Z.le_refl _)). simpl. lia.
    + rewrite JsMapFacts.get_set_neq by exact Hne. lia.
Qed.

Lemma updatePlayerScore_respects (playerId increment : Z) :
  0 <= increment ->
  respects wellFormed scoresGrow (exec (updatePlayerScore playerId increment)).
Proof.
  intros Hinc s Hs. unfold exec, updatePlayerScore. cbn [fst].
  destruct (JsMap.get playerId (players s)) as [player|] eqn:Hget; cbn [fst].
  - split; [keeps_order|].
    intros k. unfold getPlayerScore. cbn [players with_players].
    destruct (Z.eq_dec k playerId) as [-> | Hne].
    + rewrite JsMapFacts.get_set_eq, Hget. simpl. lia.
    + rewrite JsMapFacts.get_set_neq by exact Hne. lia.
  - split; [exact Hs | apply scoresGrow_refl].
Qed.

Lemma createRound_respects (gameId roundNumber judgeId : Z)
      (words : list string) (timeLimit : Z) :
  respects wellFormed scoresGrow
           (exec (createRound gameId roundNumber judgeId words timeLimit)).
Proof.
  intros s Hs. unfold exec, createRound. cbn [fst]. split.
  - keeps_order.
  - now apply scoresGrow_same_players.
Qed.

Lemma updateRoundStatus_respects (id : Z) (status : RoundStatus.t) :
  respects wellFormed scoresGrow (exec (updateRoundStatus id status)).
Proof.
  intros s Hs. unfold exec, updateRoundStatus. cbn [fst].
  destruct (JsMap.get id (rounds s)) as [round|] eqn:Hget; cbn [fst].
  - split; [keeps_order | now apply scoresGrow_same_players].
  - split; [exact Hs | apply scoresGrow_refl].
Qed.

Lemma setRoundWinner_respects (id winnerId : Z) :
  respects wellFormed scoresGrow (exec (setRoundWinner id winnerId)).
Proof.
  intros s Hs. unfold exec, setRoundWinner. cbn [fst].
  destruct (JsMap.get id (rounds s)) as [round|] eqn:Hget; cbn [fst].
  - split; [keeps_order | now apply scoresGrow_same_players].
  - split; [exact Hs | apply scoresGrow_refl].
Qed.

Lemma updateRoundEndTime_respects (id endTime : Z) :
  respects wellFormed scoresGrow (exec (updateRoundEndTime id endTime)).
Proof.
  intros s Hs. unfold exec, updateRoundEndTime. cbn [fst].
  destruct (JsMap.get id (rounds s)) as [round|] eqn:Hget; cbn [fst].
  - split; [keeps_order | now apply scoresGrow_same_players].
  - split; [exact Hs | apply scoresGrow_refl].
Qed.

Lemma createPoem_respects (roundId playerId : Z) (content : JsString) :
  respects wellFormed scoresGrow (exec (createPoem roundId playerId content)).
Proof.
  intros s Hs. unfold exec, createPoem. cbn [fst]. split.
  - keeps_order.
  - now apply scoresGrow_same_players.
Qed.

Lemma updatePoem_respects (id : Z) (content : JsString) :
  respects wellFormed scoresGrow (exec (updatePoem id content)).
Proof.
  intros s Hs. unfold exec, updatePoem. cbn [fst].
  destruct (JsMap.get id (poems s)) as [poem|] eqn:Hget; cbn [fst].
  - split; [keeps_order | now apply scoresGrow_same_players].
  - split; [exact Hs | apply scoresGrow_refl].
Qed.

Lemma submitPoem_respects (now id : Z) :
  respects wellFormed scoresGrow (exec (submitPoem now id)).
Proof.
  intros s Hs. unfold exec, submitPoem. cbn [fst].
  destruct (JsMap.get id (poems s)) as [poem|] eqn:Hget; cbn [fst].
  - split; [keeps_order | now apply scoresGrow_same_players].
  - split; [exact Hs | apply scoresGrow_refl].
Qed.

(** Walking through a handler, operation by operation. *)
Ltac walk_ordered :=
  repeat first
    [ apply (respects_bind wellFormed scoresGrow scoresGrow_trans); [|intros ?]
    | apply (respects_query wellFormed scoresGrow scoresGrow_refl)
    | apply (respects_reply wellFormed scoresGrow scoresGrow_refl)
    | apply (respects_ret wellFormed scoresGrow scoresGrow_refl)
    | apply (respects_early wellFormed scoresGrow scoresGrow_refl)
    | apply (respects_when wellFormed scoresGrow scoresGrow_refl)
    | apply (respects_forEach wellFormed scoresGrow scoresGrow_refl
                              scoresGrow_trans); intros ?
    | apply createGame_respects | apply updateGame_respects
    | apply addPlayerToGame_respects
    | apply updatePlayerScore_respects; lia
    | apply createRound_respects | apply updateRoundStatus_respects
    | apply setRoundWinner_respects | apply updateRoundEndTime_respects
    | apply createPoem_respects | apply updatePoem_respects
    | apply submitPoem_respects
    | match goal with
      | |- respects _ _ (match ?x with _ => _ end) => destruct x
      | |- respects _ _ (if ?b then _ else _) => destruct b
      end ].

Lemma postGames_respects (randomIndex : RandomSource) (now : Z) (name : string)
      (totalRounds : Z) (playerIds : list Z) :
  respects wellFormed scoresGrow
           (postGames randomIndex now name totalRounds playerIds).
Proof. unfold postGames. cbv zeta. walk_ordered. Qed.

Lemma putRoundStatus_respects (zone : Zone) (now roundId : Z)
      (status : RoundStatus.t) :
  respects wellFormed scoresGrow (putRoundStatus zone now roundId status).
Proof. unfold putRoundStatus. walk_ordered. Qed.

Lemma putPoem_respects (poemId : Z) (content : JsString) :
  respects wellFormed scoresGrow (putPoem poemId content).
Proof. unfold putPoem. walk_ordered. Qed.

Lemma postPoemSubmit_respects (now poemId : Z) :
  respects wellFormed scoresGrow (postPoemSubmit now poemId).
Proof. unfold postPoemSubmit. walk_ordered. Qed.

Lemma postRoundWinner_respects (roundId poemId : Z) :
  respects wellFormed scoresGrow (postRoundWinner roundId poemId).
Proof. unfold postRoundWinner. cbv zeta. walk_ordered. Qed.

Lemma postGameNextRound_respects (randomIndex : RandomSource) (gameId : Z) :
  respects wellFormed scoresGrow (postGameNextRound randomIndex gameId).
Proof. unfold postGameNextRound. cbv zeta. walk_ordered. Qed.

Lemma getGameById_respects (gameId : Z) :
  respects wellFormed scoresGrow (getGameById gameId).
Proof. unfold getGameById. walk_ordered. Qed.

Lemma postUsers_keeps_order (username password : option string) (s : MemStorage) :
  wellFormed s -> wellFormed (fst (postUsers username password s)).
Proof.
  intros Hs. unfold postUsers.
  destruct (falsyField username || falsyField password); [exact Hs|].
  destruct username as [username|]; [|exact Hs].
  destruct password as [password|]; [|exact Hs].
  destruct (getUserByUsername username s); [exact Hs|].
  exact (proj1 (createUser_respects username password s Hs)).
Qed.

Lemma newMemStorage_wellFormed : wellFormed newMemStorage.
Proof.
  assert (Hempty : wellFormed emptyStorage).
  { unfold wellFormed, mapOk, emptyStorage. cbn.
    repeat split; try apply NoDup_nil; try contradiction. }
  unfold newMemStorage. cbv zeta.
  repeat match goal with
         | |- wellFormed (fst (createUser ?u ?p ?s)) =>
             apply (fun H => proj1 (createUser_respects u p s H))
         end.
  exact Hempty.
Qed.

Lemma serve_respects (request : Request) (s : MemStorage) :
  wellFormed s -> wellFormed (serve request s) /\ scoresGrow s (serve request s).
Proof.
  intros Hs. destruct request; cbn [serve].
  - split; [now apply postUsers_keeps_order|].
    apply scoresGrow_same_players. unfold postUsers.
    destruct (falsyField username || falsyField password); [reflexivity|].
    destruct username; [|reflexivity]. destruct password; [|reflexivity].
    now destruct (getUserByUsername s0 s).
  - now apply postGames_respects.
  - now apply getGameById_respects.
  - now apply putRoundStatus_respects.
  - now apply putPoem_respects.
  - now apply postPoemSubmit_respects.
  - now apply postRoundWinner_respects.
  - now apply postGameNextRound_respects.
Qed.

Lemma serveAll_respects (requests : list Request) (s : MemStorage) :
  wellFormed s ->
  wellFormed (serveAll requests s) /\ scoresGrow s (serveAll requests s).
Proof.
  revert s. induction requests as [|request requests IH]; intros s Hs.
  - split; [exact Hs | apply scoresGrow_refl].
  - destruct (serve_respects request s Hs) as [Hwf Hgrow].
    destruct (IH (serve request s) Hwf) as [Hwf' Hgrow'].
    split; [exact Hwf'|].
    now apply scoresGrow_trans with (serve request s).
Qed.

(** X1.  Whatever requests a server has answered since its start, its
    store is in order: in each of the five maps the keys are distinct,
    every record is stored under its own id, and every id is below the
    counter that hands out the next one.  The same holds from any store in
    order. *)
Theorem store_stays_in_order (requests : list Request) :
  wellFormed (serveAll requests newMemStorage) /\
  (forall s, wellFormed s -> wellFormed (serveAll requests s)).
Proof.
  split.
  - exact (proj1 (serveAll_respects requests newMemStorage
                                    newMemStorage_wellFormed)).
  - intros s Hs. exact (proj1 (serveAll_respects requests s Hs)).
Qed.

Lemma store_stays_in_order_witness :
  wellFormed (serveAll [PostGames firstIndex 1000 "Poets" 3 [2; 1];
                        PutRoundStatus utcZone 2000 1 RoundStatus.writing]
                       newMemStorage).
Proof.
  exact (proj2 (store_stays_in_order
                  [PostGames firstIndex 1000 "Poets" 3 [2; 1];
                   PutRoundStatus utcZone 2000 1 RoundStatus.writing])
               newMemStorage newMemStorage_wellFormed).
Defined.

(** X2.  No request ever lowers a score: after any sequence of requests on
    a store in order, every player's score is at least what it was. *)
Theorem scores_never_decrease (requests : list Request) (s : MemStorage)
        (playerId : Z) :
  wellFormed s ->
  getPlayerScore playerId s <= getPlayerScore playerId (serveAll requests s).
Proof.
  intros Hs. exact (proj2 (serveAll_respects requests s Hs) playerId).
Qed.

Lemma afterSubmit_wellFormed : wellFormed afterSubmit.
Proof.
  assert (Hreach : afterSubmit
                   = serveAll [PostGames firstIndex 1000 "Poets" 3 [2; 1];
                               PutRoundStatus utcZone 2000 1 RoundStatus.writing;
                               PutPoem 1 (utf16 "the moon is a silver door");
                               PostPoemSubmit 3000 1]
                              newMemStorage)
    by (vm_compute; reflexivity).
  rewrite Hreach.
  exact (proj1 (serveAll_respects _ newMemStorage newMemStorage_wellFormed)).
Qed.

Lemma scores_never_decrease_witness :
  getPlayerScore 1 afterSubmit
  <= getPlayerScore 1 (serveAll [PostRoundWinner 1 1; PostRoundWinner 1 1;
                                 PostGameNextRound firstIndex 1]
                                afterSubmit).
Proof.
  exact (scores_never_decrease
           [PostRoundWinner 1 1; PostRoundWinner 1 1;
            PostGameNextRound firstIndex 1] afterSubmit 1
           afterSubmit_wellFormed).
Defined.

(** ** Creating a game touches nothing that exists *)

Lemma retains_refl (s : MemStorage) : retains s s.
Proof. unfold retains. repeat split; try lia; reflexivity. Qed.

Lemma retains_trans (s1 s2 s3 : MemStorage) :
  retains s1 s2 -> retains s2 s3 -> retains s1 s3.
Proof.
  unfold retains.
  intros ((Hu1 & Hu1') & (Hg1 & Hg1') & (Hp1 & Hp1') & (Hr1 & Hr1') & (Ho1 & Ho1'))
         ((Hu2 & Hu2') & (Hg2 & Hg2') & (Hp2 & Hp2') & (Hr2 & Hr2') & (Ho2 & Ho2')).
  repeat split; try lia; intros k Hk.
  - rewrite Hu2' by lia. now apply Hu1'.
  - rewrite Hg2' by lia. now apply Hg1'.
  - rewrite Hp2' by lia. now apply Hp1'.
  - rewrite Hr2' by lia. now apply Hr1'.
  - rewrite Ho2' by lia. now apply Ho1'.
Qed.

Ltac retains_after_create :=
  intros s _; split; [exact I|];
  unfold retains, exec, getUser, getGame, getRound, getPoem; cbn;
  repeat split; try lia; try reflexivity;
  intros k Hk; apply JsMapFacts.get_set_neq; lia.

Lemma createGame_retains (now : Z) (name : string) (createdBy totalRounds : Z) :
  respects anyStore retains (exec (createGame now name createdBy totalRounds)).
Proof. retains_after_create. Qed.

Lemma addPlayerToGame_retains (gameId userId : Z) (isHost : bool) :
  respects anyStore retains (exec (addPlayerToGame gameId userId isHost)).
Proof. retains_after_create. Qed.

Lemma createRound_retains (gameId roundNumber judgeId : Z)
      (words : list string) (timeLimit : Z) :
  respects anyStore retains
           (exec (createRound gameId roundNumber judgeId words timeLimit)).
Proof. retains_after_create. Qed.

Lemma createPoem_retains (roundId playerId : Z) (content : JsString) :
  respects anyStore retains (exec (createPoem roundId playerId content)).
Proof. retains_after_create. Qed.

(** Walking through a handler that only creates records. *)
Ltac walk_creating :=
  repeat first
    [ apply (respects_bind anyStore retains retains_trans); [|intros ?]
    | apply (respects_query anyStore retains retains_refl)
    | apply (respects_reply anyStore retains retains_refl)
    | apply (respects_ret anyStore retains retains_refl)
    | apply (respects_when anyStore retains retains_refl)
    | apply (respects_forEach anyStore retains retains_refl retains_trans);
      intros ?
    | apply createGame_retains | apply addPlayerToGame_retains
    | apply createRound_retains | apply createPoem_retains
    | match goal with
      | |- respects _ _ (if ?b then _ else _) => destruct b
      end ].

Lemma postGames_retains (randomIndex : RandomSource) (now : Z) (name : string)
      (totalRounds : Z) (playerIds : list Z) :
  respects anyStore retains
           (postGames randomIndex now name totalRounds playerIds).
Proof. unfold postGames. cbv zeta. walk_creating. Qed.

(** X3.  Creating a game alters and removes nothing: on a store in order,
    every user, game, player, round and poem that could be read before the
    request reads the same after it, whether the request is accepted or
    refused. *)
Theorem postGames_keeps_existing_records
        (randomIndex : RandomSource) (now : Z) (name : string)
        (totalRounds : Z) (playerIds : list Z) (s : MemStorage) :
  wellFormed s ->
  let s' := fst (run (postGames randomIndex now name totalRounds playerIds) s) in
  (forall k user, getUser k s = Some user -> getUser k s' = Some user) /\
  (forall k game, getGame k s = Some game -> getGame k s' = Some game) /\
  (forall k player, JsMap.get k (players s) = Some player ->
                    JsMap.get k (players s') = Some player) /\
  (forall k round, getRound k s = Some round -> getRound k s' = Some round) /\
  (forall k poem, getPoem k s = Some poem -> getPoem k s' = Some poem).
Proof.
  intros (Hu & Hg & Hpl & Hr & Hpo). cbv zeta.
  destruct (postGames_retains randomIndex now name totalRounds playerIds s I)
    as [_ ((_ & Hu') & (_ & Hg') & (_ & Hpl') & (_ & Hr') & (_ & Hpo'))].
  unfold run. cbn [fst].
  repeat split; intros k v Hget.
  - rewrite Hu'; [exact Hget|]. apply get_in in Hget. now apply Hu in Hget.
  - rewrite Hg'; [exact Hget|]. apply get_in in Hget. now apply Hg in Hget.
  - rewrite Hpl'; [exact Hget|]. apply get_in in Hget. now apply Hpl in Hget.
  - rewrite Hr'; [exact Hget|]. apply get_in in Hget. now apply Hr in Hget.
  - rewrite Hpo'; [exact Hget|]. apply get_in in Hget. now apply Hpo in Hget.
Qed.

Lemma postGames_keeps_existing_records_witness :
  getPoem 1 (fst (run (postGames firstIndex 5000 "Again" 2 [1; 2; 3])
                      afterSubmit))
  = getPoem 1 afterSubmit.
Proof.
  pose proof (postGames_keeps_existing_records
                firstIndex 5000 "Again" 2 [1; 2; 3] afterSubmit
                afterSubmit_wellFormed) as H.
  cbv zeta in H. destruct H as (_ & _ & _ & _ & Hpoems).
  exact (Hpoems 1 (Poem.mk 1 1 1 (utf16 "the moon is a silver door") true
                           (Some 3000))
                eq_refl).
Defined.

(** Closing an arithmetic side condition on a concrete store by
    evaluation. *)
Ltac by_eval :=
  vm_compute; repeat split; first [reflexivity | discriminate].

(** ** Unknown ids *)

(** X4.  A request that names a poem, round or game the store does not
    hold is answered 404 and leaves the store exactly as it was.  The
    winner request looks the poem up first: with an unknown poem it
    answers that the poem is missing whatever the round id. *)
Theorem unknown_ids_answer_404 (s : MemStorage) :
  (forall poemId content,
      getPoem poemId s = None ->
      run (putPoem poemId content) s
      = (s, mkResponse 404 (Message "Poem not found"))) /\
  (forall now poemId,
      getPoem poemId s = None ->
      run (postPoemSubmit now poemId) s
      = (s, mkResponse 404 (Message "Poem not found"))) /\
  (forall roundId poemId,
      getPoem poemId s = None ->
      run (postRoundWinner roundId poemId) s
      = (s, mkResponse 404 (Message "Poem not found"))) /\
  (forall roundId poemId poem,
      getPoem poemId s = Some poem ->
      getRound roundId s = None ->
      run (postRoundWinner roundId poemId) s
      = (s, mkResponse 404 (Message "Round not found"))) /\
  (forall randomIndex gameId,
      getGame gameId s = None ->
      run (postGameNextRound randomIndex gameId) s
      = (s, mkResponse 404 (Message "Game not found"))) /\
  (forall gameId,
      getGame gameId s = None ->
      run (getGameById gameId) s
      = (s, mkResponse 404 (Message "Game not found"))).
Proof.
  repeat split.
  - intros poemId content Hnone. unfold putPoem. route.
    unfold updatePoem, getPoem in *. now rewrite Hnone.
  - intros now poemId Hnone. unfold postPoemSubmit. route. now rewrite Hnone.
  - intros roundId poemId Hnone. unfold postRoundWinner. route.
    now rewrite Hnone.
  - intros roundId poemId poem Hpoem Hnone. unfold postRoundWinner. route.
    rewrite Hpoem. cbn [fst snd]. now rewrite Hnone.
  - intros randomIndex gameId Hnone. unfold postGameNextRound. route.
    now rewrite Hnone.
  - intros gameId Hnone. unfold getGameById. route.
    unfold getGameWithPlayers, getGame in *. now rewrite Hnone.
Qed.

Lemma unknown_ids_answer_404_witness :
  run (putPoem 7 (utf16 "lost")) afterSubmit
  = (afterSubmit, mkResponse 404 (Message "Poem not found")) /\
  run (postRoundWinner 7 1) afterSubmit
  = (afterSubmit, mkResponse 404 (Message "Round not found")).
Proof.
  destruct (unknown_ids_answer_404 afterSubmit)
    as (Hput & _ & _ & Hwinner & _).
  split.
  - apply Hput. reflexivity.
  - apply (Hwinner 7 1 (Poem.mk 1 1 1 (utf16 "the moon is a silver door")
                                true (Some 3000))); reflexivity.
Defined.

(** ** What the status request writes *)

Lemma updateRoundEndTime_frame (id endTime : Z) (s : MemStorage) :
  let s' := fst (updateRoundEndTime id endTime s) in
  games s' = games s /\ players s' = players s /\ poems s' = poems s /\
  forall k, k <> id -> getRound k s' = getRound k s.
Proof.
  unfold updateRoundEndTime, getRound.
  destruct (JsMap.get id (rounds s)); cbn; repeat split.
  intros k Hk. now apply JsMapFacts.get_set_neq.
Qed.

Lemma updateRoundStatus_frame (id : Z) (status : RoundStatus.t) (s : MemStorage) :
  let s' := fst (updateRoundStatus id status s) in
  games s' = games s /\ players s' = players s /\ poems s' = poems s /\
  forall k, k <> id -> getRound k s' = getRound k s.
Proof.
  unfold updateRoundStatus, getRound.
  destruct (JsMap.get id (rounds s)); cbn; repeat split.
  intros k Hk. now apply JsMapFacts.get_set_neq.
Qed.

Lemma setSeconds_getSeconds (zone : Zone) (t seconds : Z) :
  setSeconds zone t (getSeconds zone t + seconds)
  = UTC zone (LocalTime zone t + 1000 * seconds).
Proof. unfold setSeconds, getSeconds. cbv zeta. f_equal. ring. Qed.

(** X5.  A status request on an existing round rewrites the status, and
    the end time only when the new status is writing, also when the round
    had an end time already: the end time becomes the local time of the
    request plus the time limit in seconds, taken back to UTC.  That is
    the time of the request plus the time limit whenever the zone has the
    same offset at that local time as at the request, as in a zone
    without changes of offset.  The winner, the words and the other fields
    of the round, the other rounds, the poems, the players and the games
    are as before; so a round can be completed without a winner. *)
Theorem putRoundStatus_sets_end_time_on_writing_only
        (zone : Zone) (now roundId : Z) (status : RoundStatus.t)
        (s : MemStorage) (round : Round.t) :
  getRound roundId s = Some round ->
  let s' := fst (run (putRoundStatus zone now roundId status) s) in
  let localEnd := LocalTime zone now + 1000 * Round.timeLimit round in
  getRound roundId s'
  = Some (Round.mk (Round.id round) (Round.gameId round)
                   (Round.roundNumber round) (Round.judgeId round)
                   (Round.words round) status (Round.timeLimit round)
                   (match status with
                    | RoundStatus.writing => Some (UTC zone localEnd)
                    | _ => Round.endTime round
                    end)
                   (Round.winnerId round)) /\
  (offsetOfLocal zone localEnd = offsetOfUtc zone now ->
   UTC zone localEnd = now + 1000 * Round.timeLimit round) /\
  (forall k, k <> roundId -> getRound k s' = getRound k s) /\
  poems s' = poems s /\ players s' = players s /\ games s' = games s.
Proof.
  intros Hround. cbv zeta.
  assert (Hsame : offsetOfLocal
                    zone (LocalTime zone now + 1000 * Round.timeLimit round)
                  = offsetOfUtc zone now ->
                  UTC zone (LocalTime zone now + 1000 * Round.timeLimit round)
                  = now + 1000 * Round.timeLimit round).
  { unfold UTC, LocalTime. intros ->. ring. }
  unfold putRoundStatus. route. rewrite Hround.
  destruct status; cbn [RoundStatus.eqb fst snd].
  - destruct (updateRoundStatus_frame roundId RoundStatus.setup s)
      as (Hg & Hpl & Hpo & Hother).
    rewrite (updateRoundStatus_getRound _ _ _ round Hround). tauto.
  - rewrite setSeconds_getSeconds.
    set (endTime := UTC zone (LocalTime zone now
                              + 1000 * Round.timeLimit round)) in *.
    destruct (updateRoundEndTime_frame roundId endTime s)
      as (Hg1 & Hpl1 & Hpo1 & Hother1).
    destruct (updateRoundStatus_frame
                roundId RoundStatus.writing
                (fst (updateRoundEndTime roundId endTime s)))
      as (Hg & Hpl & Hpo & Hother).
    rewrite (updateRoundStatus_getRound
               _ _ _ _ (updateRoundEndTime_getRound _ _ _ _ Hround)).
    split; [reflexivity|]. split; [exact Hsame|]. split.
    + intros k Hk. rewrite Hother by exact Hk. now apply Hother1.
    + repeat split; congruence.
  - destruct (updateRoundStatus_frame roundId RoundStatus.judging s)
      as (Hg & Hpl & Hpo & Hother).
    rewrite (updateRoundStatus_getRound _ _ _ round Hround). tauto.
  - destruct (updateRoundStatus_frame roundId RoundStatus.completed s)
      as (Hg & Hpl & Hpo & Hother).
    rewrite (updateRoundStatus_getRound _ _ _ round Hround). tauto.
Qed.

Lemma putRoundStatus_sets_end_time_on_writing_only_witness :
  option_map Round.endTime
    (getRound 1 (fst (run (putRoundStatus utcZone 9000 1 RoundStatus.writing)
                          afterSubmit)))
  = Some (Some 309000) /\
  option_map Round.winnerId
    (getRound 1 (fst (run (putRoundStatus utcZone 9000 1 RoundStatus.completed)
                          afterSubmit)))
  = Some None.
Proof.
  split.
  - pose proof (putRoundStatus_sets_end_time_on_writing_only
                  utcZone 9000 1 RoundStatus.writing afterSubmit
                  (Round.mk 1 1 1 2 (generateRandomWords firstIndex 5)
                            RoundStatus.judging 300 (Some 302000) None)
                  eq_refl) as H.
    cbv zeta in H. destruct H as (H & Hutc & _).
    rewrite H. cbn [option_map Round.endTime].
    rewrite (Hutc eq_refl). reflexivity.
  - pose proof (putRoundStatus_sets_end_time_on_writing_only
                  utcZone 9000 1 RoundStatus.completed afterSubmit
                  (Round.mk 1 1 1 2 (generateRandomWords firstIndex 5)
                            RoundStatus.judging 300 (Some 302000) None)
                  eq_refl) as H.
    cbv zeta in H. destruct H as [H _]. rewrite H. reflexivity.
Defined.

(** ** Submitting before the round is ready *)

Lemma submitPoem_frame (now id : Z) (s : MemStorage) :
  let s' := fst (submitPoem now id s) in
  games s' = games s /\ players s' = players s /\ rounds s' = rounds s /\
  forall k, k <> id -> getPoem k s' = getPoem k s.
Proof.
  unfold submitPoem, getPoem.
  destruct (JsMap.get id (poems s)); cbn; repeat split.
  intros k Hk. now apply JsMapFacts.get_set_neq.
Qed.

(** X6.  Submitting a poem moves no round unless the poem's round is in
    writing and every poem of it is then submitted: when the round is
    unknown, or is in another status, or holds another poem that is not
    submitted, the request still succeeds and marks the poem, and all
    rounds, all other poems, the players and the games are as before. *)
Theorem submit_alone_moves_no_round
        (now poemId : Z) (s : MemStorage) (poem : Poem.t) :
  getPoem poemId s = Some poem ->
  ~ blank (Poem.content poem) ->
  (getRound (Poem.roundId poem) s = None \/
   exists round,
     getRound (Poem.roundId poem) s = Some round /\
     (Round.status round <> RoundStatus.writing \/
      exists k other,
        In (k, other) (poems s) /\ k <> poemId /\
        Poem.roundId other = Round.id round /\
        Poem.submitted other = false)) ->
  let s' := fst (run (postPoemSubmit now poemId) s) in
  statusCode (snd (run (postPoemSubmit now poemId) s)) = 200 /\
  option_map Poem.submitted (getPoem poemId s') = Some true /\
  rounds s' = rounds s /\
  (forall k, k <> poemId -> getPoem k s' = getPoem k s) /\
  players s' = players s /\ games s' = games s.
Proof.
  intros Hpoem Hb Hcase. cbv zeta.
  apply trim_truthy_iff_not_blank in Hb.
  destruct (submitPoem_frame now poemId s) as (Hg & Hpl & Hr & Hother).
  pose proof (submitPoem_getPoem now poemId s poem Hpoem) as Hsub.
  set (s1 := fst (submitPoem now poemId s)) in *.
  assert (Hquiet :
            forall round,
              getRound (Poem.roundId poem) s = Some round ->
              (Round.status round <> RoundStatus.writing \/
               exists k other,
                 In (k, other) (poems s) /\ k <> poemId /\
                 Poem.roundId other = Round.id round /\
                 Poem.submitted other = false) ->
              allSubmitted (Round.id round) s1
              && RoundStatus.eqb (Round.status round) RoundStatus.writing
              = false).
  { intros round _ [Hstatus | (k & other & Hin & Hk & Hrid & Hun)].
    - destruct (Round.status round); try congruence; apply andb_false_r.
    - apply andb_false_intro1.
      destruct (allSubmitted (Round.id round) s1) eqn:Hall; [|reflexivity].
      unfold allSubmitted in Hall.
      rewrite forallb_forall in Hall.
      rewrite <- Hun. symmetry. apply Hall. unfold getPoemsByRound.
      apply filter_In. split; [|now apply Z.eqb_eq].
      unfold JsMap.values. apply in_map_iff. exists (k, other).
      split; [reflexivity|].
      unfold s1, submitPoem. unfold getPoem in Hpoem. rewrite Hpoem. cbn.
      now apply JsMapFacts.in_set_other. }
  assert (Hsame : getRound (Poem.roundId poem) s1
                  = getRound (Poem.roundId poem) s).
  { unfold getRound. now rewrite Hr. }
  unfold postPoemSubmit. route. rewrite Hpoem, Hb. cbn [negb].
  fold s1. rewrite Hsame.
  destruct Hcase as [Hnone | (round & Hround & Hwhy)].
  - rewrite Hnone. cbn [fst snd]. rewrite Hsub. tauto.
  - rewrite Hround. cbn [fst snd]. rewrite (Hquiet round Hround Hwhy).
    cbn [fst snd]. rewrite Hsub. tauto.
Qed.

Lemma submit_alone_moves_no_round_witness :
  rounds (fst (run (postPoemSubmit 4000 1) (roundInJudging [1; 2; 3])))
  = rounds (roundInJudging [1; 2; 3]) /\
  option_map Round.status (getRound 1 (roundInJudging [1; 2; 3]))
  = Some RoundStatus.writing.
Proof.
  split; [|reflexivity].
  pose proof (submit_alone_moves_no_round
                4000 1 (roundInJudging [1; 2; 3])
                (Poem.mk 1 1 2 (utf16 "the moon is a silver door") true
                         (Some 3000))
                eq_refl) as H.
  cbv zeta in H. apply H.
  - intros Hb. specialize (Hb 116 (or_introl eq_refl)). discriminate.
  - right.
    exists (Round.mk 1 1 1 1 (generateRandomWords firstIndex 5)
                     RoundStatus.writing 300 (Some 302000) None).
    split; [reflexivity|]. right.
    exists 2, (Poem.mk 2 1 3 [] false None).
    split; [vm_compute; right; left; reflexivity|].
    split; [lia | split; reflexivity].
Defined.

(** ** The winner request asks nothing of the poem *)

Lemma setRoundWinner_other_rounds (id winnerId : Z) (s : MemStorage) (k : Z) :
  k <> id -> getRound k (fst (setRoundWinner id winnerId s)) = getRound k s.
Proof.
  intros Hk. unfold setRoundWinner, getRound.
  destruct (JsMap.get id (rounds s)); cbn; [|reflexivity].
  now apply JsMapFacts.get_set_neq.
Qed.

(** X7.  The winner request checks neither that the poem belongs to the
    round nor that it was submitted nor the status of the round: for any
    poem and any round of the store it succeeds, completes that round with
    the [playerId] of the poem as winner, and leaves the other rounds, all
    poems and all games as they were. *)
Theorem winner_request_accepts_any_poem
        (roundId poemId : Z) (s : MemStorage) (poem : Poem.t) (round : Round.t) :
  getPoem poemId s = Some poem ->
  getRound roundId s = Some round ->
  let s' := fst (run (postRoundWinner roundId poemId) s) in
  statusCode (snd (run (postRoundWinner roundId poemId) s)) = 200 /\
  option_map Round.status (getRound roundId s') = Some RoundStatus.completed /\
  option_map Round.winnerId (getRound roundId s')
  = Some (Some (Poem.playerId poem)) /\
  (forall k, k <> roundId -> getRound k s' = getRound k s) /\
  poems s' = poems s /\ games s' = games s.
Proof.
  intros Hpoem Hround.
  destruct (postRoundWinner_effect roundId poemId s poem round Hpoem Hround)
    as (Hok & Hround' & Hpoems & _).
  cbv zeta. rewrite Hround'. repeat split; try assumption.
  - intros k Hk. unfold postRoundWinner. route.
    rewrite Hpoem. cbn [fst snd]. rewrite Hround. cbn [fst snd].
    unfold getRound at 1.
    rewrite (proj1 (updatePlayerScore_frame _ _ _)).
    now apply setRoundWinner_other_rounds.
  - unfold postRoundWinner. route.
    rewrite Hpoem. cbn [fst snd]. rewrite Hround. cbn [fst snd].
    rewrite (proj2 (proj2 (updatePlayerScore_frame _ _ _))).
    exact (proj2 (proj2 (setRoundWinner_frame _ _ _))).
Qed.

Lemma winner_request_accepts_any_poem_witness :
  option_map Poem.roundId (getPoem 2 secondRound) = Some 2 /\
  option_map Poem.submitted (getPoem 2 secondRound) = Some false /\
  option_map Round.winnerId
    (getRound 1 (fst (run (postRoundWinner 1 2) secondRound)))
  = Some (Some 1).
Proof.
  split; [reflexivity | split; [reflexivity|]].
  pose proof (winner_request_accepts_any_poem
                1 2 secondRound (Poem.mk 2 2 1 [] false None)
                (Round.mk 1 1 1 4 (generateRandomWords firstIndex 5)
                          RoundStatus.completed 300 (Some 302000) (Some 5))
                eq_refl eq_refl) as H.
  cbv zeta in H. destruct H as (_ & _ & H & _). exact H.
Defined.

(** ** Rounds in a row *)

Lemma getPlayersByGame_same_players (gameId : Z) (s s' : MemStorage) :
  players s' = players s -> getPlayersByGame gameId s' = getPlayersByGame gameId s.
Proof. intros Heq. unfold getPlayersByGame. now rewrite Heq. Qed.

(** X8.  Next-round requests compose: on a game with at least two players,
    a judge index that is a roster position and at least [k] rounds left,
    [k] requests in a row leave the game at round [currentRound + k] with
    judge index [(currentJudgeIndex + k) mod rosterSize], the roster and
    the total unchanged.  The rotation therefore comes back to the same
    judge after [rosterSize] rounds. *)
Theorem nextRounds_advance_round_and_judge
        (randomIndex : RandomSource) (gameId : Z) (k : nat) (s : MemStorage)
        (game : Game.t) :
  getGame gameId s = Some game ->
  2 <= Z.of_nat (length (getPlayersByGame gameId s)) ->
  0 <= Game.currentJudgeIndex game
       < Z.of_nat (length (getPlayersByGame gameId s)) ->
  Game.currentRound game + Z.of_nat k <= Game.totalRounds game ->
  let s' := nextRounds randomIndex gameId k s in
  getGame gameId s'
  = Some (Game.mk (Game.id game) (Game.name game) (Game.createdBy game)
                  (Game.currentRound game + Z.of_nat k)
                  (Game.totalRounds game)
                  ((Game.currentJudgeIndex game + Z.of_nat k)
                     mod Z.of_nat (length (getPlayersByGame gameId s)))
                  (Game.status game) (Game.createdAt game)) /\
  getPlayersByGame gameId s' = getPlayersByGame gameId s.
Proof.
  revert s game. induction k as [|k IH]; intros s game Hgame Hsize Hidx Hleft.
  - cbn [nextRounds]. rewrite !Z.add_0_r.
    rewrite Z.mod_small by exact Hidx. split; [|reflexivity].
    rewrite Hgame. now destruct game.
  - cbn [nextRounds]. cbv zeta.
    destruct (nextJudge_next game (getPlayersByGame gameId s) Hsize
                             (proj1 Hidx)) as (judge & _ & Hjudge).
    destruct (postGameNextRound_started randomIndex gameId s game _ judge
                                        Hgame ltac:(lia) Hjudge)
      as (_ & Hgame1 & _ & Hplayers1 & _).
    set (s1 := fst (run (postGameNextRound randomIndex gameId) s)) in *.
    pose proof (getPlayersByGame_same_players gameId s s1 Hplayers1) as Hroster.
    set (n := Z.of_nat (length (getPlayersByGame gameId s))) in *.
    pose proof (Z.mod_pos_bound (Game.currentJudgeIndex game + 1) n
                                ltac:(lia)) as Hbound.
    destruct (IH s1 _ Hgame1) as [Hgame' Hroster'].
    + rewrite Hroster. exact Hsize.
    + rewrite Hroster. cbn [Game.currentJudgeIndex]. exact Hbound.
    + cbn [Game.currentRound Game.totalRounds]. lia.
    + cbv zeta in Hgame'. rewrite Hgame', Hroster', Hroster.
      cbn [Game.id Game.name Game.createdBy Game.currentRound Game.totalRounds
           Game.currentJudgeIndex Game.status Game.createdAt].
      fold n. split; [|reflexivity]. f_equal. f_equal.
      * lia.
      * rewrite Z.add_mod_idemp_l by lia. f_equal. lia.
Qed.

Lemma nextRounds_advance_round_and_judge_witness :
  option_map Game.currentJudgeIndex
             (getGame 1 (nextRounds firstIndex 1 2 afterWinner)) = Some 0 /\
  option_map Game.currentRound
             (getGame 1 (nextRounds firstIndex 1 2 afterWinner)) = Some 3.
Proof.
  pose proof (nextRounds_advance_round_and_judge
                firstIndex 1 2 afterWinner
                (Game.mk 1 "Poets" 2 1 3 0 GameStatus.waiting 1000)
                eq_refl) as H.
  cbv zeta in H. destruct H as [H _]; [by_eval | by_eval | by_eval |].
  rewrite H. split; reflexivity.
Defined.

(** ** What a create-game request checks and opens *)

Lemma validCreateGameRequest_bounds (name : string) (totalRounds : Z)
      (playerIds : list Z) :
  validCreateGameRequest name totalRounds playerIds = true <->
  1 <= Z.of_nat (String.length name) <= 100 /\
  1 <= totalRounds <= 10 /\
  2 <= Z.of_nat (length playerIds) <= 5.
Proof.
  unfold validCreateGameRequest.
  rewrite !andb_true_iff, !Z.leb_le. tauto.
Qed.

Lemma postGames_game
      (randomIndex : RandomSource) (now : Z) (name : string) (totalRounds : Z)
      (playerIds : list Z) (s : MemStorage) :
  validCreateGameRequest name totalRounds playerIds = true ->
  getGame (gameIdCounter s)
          (fst (run (postGames randomIndex now name totalRounds playerIds) s))
  = Some (Game.mk (gameIdCounter s) name (nth 0 playerIds 0) 1 totalRounds 0
                  GameStatus.waiting now).
Proof.
  intros Hvalid. unfold postGames, run. rewrite Hvalid. cbn [negb fst].
  cbv zeta. rewrite bind_exec.
  set (s1 := fst (createGame now name (nth 0 playerIds 0) totalRounds s)).
  match goal with
  | |- getGame _ (fst (?rest s1)) = _ =>
      assert (Hrest : respects anyStore retains rest) by walk_creating;
      destruct (Hrest s1 I) as [_ (_ & (_ & Hgames) & _)]
  end.
  rewrite Hgames by (subst s1; cbn; lia).
  subst s1. unfold getGame, createGame. cbn.
  apply JsMapFacts.get_set_eq.
Qed.

(** X9.  A create-game request is accepted exactly when the name has 1 to
    100 characters, the rounds number 1 to 10 and the player ids 2 to 5.
    A refused request is answered 400 and changes nothing.  An accepted
    one is answered 201 and stores a game at round 1 with judge index 0
    and status waiting, created by the first id of the request, whose
    first round is judged by that id, is in setup with a limit of 300
    seconds, and has neither end time nor winner; the first id gets the
    player record flagged as host. *)
Theorem postGames_checks_and_opens_round_one
        (randomIndex : RandomSource) (now : Z) (name : string)
        (totalRounds : Z) (playerIds : list Z) (s : MemStorage) :
  let s' := fst (run (postGames randomIndex now name totalRounds playerIds) s) in
  let response :=
    snd (run (postGames randomIndex now name totalRounds playerIds) s) in
  let hostId := nth 0 playerIds 0 in
  let accepted :=
    1 <= Z.of_nat (String.length name) <= 100 /\
    1 <= totalRounds <= 10 /\
    2 <= Z.of_nat (length playerIds) <= 5 in
  (~ accepted ->
   response = mkResponse 400 (Message "Invalid game data") /\ s' = s) /\
  (accepted ->
   statusCode response = 201 /\
   getGame (gameIdCounter s) s'
   = Some (Game.mk (gameIdCounter s) name hostId 1 totalRounds 0
                   GameStatus.waiting now) /\
   getRound (roundIdCounter s) s'
   = Some (Round.mk (roundIdCounter s) (gameIdCounter s) 1 hostId
                    (generateRandomWords randomIndex 5)
                    RoundStatus.setup 300 None None) /\
   JsMap.get (playerIdCounter s) (players s')
   = Some (Player.mk (playerIdCounter s) (gameIdCounter s) hostId 0 true)).
Proof.
  cbv zeta. split.
  - intros Hno. rewrite <- validCreateGameRequest_bounds in Hno.
    apply not_true_is_false in Hno.
    unfold postGames, run. rewrite Hno. now split.
  - intros Hyes. pose proof Hyes as Hlen.
    apply validCreateGameRequest_bounds in Hyes.
    destruct (postGames_created randomIndex now name totalRounds playerIds s
                                Hyes)
      as (Hok & Hplayers & Hround & _).
    split; [exact Hok|]. split; [now apply postGames_game|].
    split; [exact Hround|].
    destruct playerIds as [|hostId rest]; [simpl in Hlen; lia|].
    specialize (Hplayers 0%nat hostId eq_refl).
    rewrite Z.add_0_r in Hplayers. exact Hplayers.
Qed.

Lemma postGames_checks_and_opens_round_one_witness :
  (snd (run (postGames firstIndex 1000 "Alone" 3 [1]) newMemStorage)
   = mkResponse 400 (Message "Invalid game data") /\
   fst (run (postGames firstIndex 1000 "Alone" 3 [1]) newMemStorage)
   = newMemStorage) /\
  option_map Game.currentRound
    (getGame 1 (fst (run (postGames firstIndex 1000 "Poets" 3 [2; 1])
                         newMemStorage)))
  = Some 1.
Proof.
  split.
  - pose proof (postGames_checks_and_opens_round_one
                  firstIndex 1000 "Alone" 3 [1] newMemStorage) as H.
    cbv zeta in H. destruct H as [H _]. apply H. simpl. lia.
  - pose proof (postGames_checks_and_opens_round_one
                  firstIndex 1000 "Poets" 3 [2; 1] newMemStorage) as H.
    cbv zeta in H. destruct H as [_ H].
    destruct H as (_ & Hgame & _); [simpl; lia|].
    change (gameIdCounter newMemStorage) with 1 in Hgame.
    rewrite Hgame. reflexivity.
Defined.

(** ** One poem per writer *)

Lemma filter_all {A} (p : A -> bool) (l : list A) :
  (forall x, In x l -> p x = true) -> filter p l = l.
Proof.
  induction l as [|a l IH]; intros Hall; cbn [filter]; [reflexivity|].
  rewrite (Hall a (or_introl eq_refl)). f_equal.
  apply IH. intros x Hx. apply Hall. now right.
Qed.

(** Dropping the elements that share the key of [j] from a list with
    distinct keys drops [j] alone. *)
Lemma filter_out_one {A} (key : A -> Z) (l : list A) (j : A) :
  NoDup (map key l) -> In j l ->
  S (length (filter (fun x => negb (key x =? key j)) l)) = length l.
Proof.
  induction l as [|a l IH]; intros Hnd Hin; [destruct Hin|].
  cbn [map] in Hnd. inversion Hnd as [|? ? Hnotin Hnd']; subst.
  cbn [filter length]. destruct Hin as [-> | Hin].
  - rewrite Z.eqb_refl. cbn [negb]. f_equal. f_equal.
    apply filter_all. intros x Hx.
    apply negb_true_iff, Z.eqb_neq. intros Heq.
    apply Hnotin. rewrite <- Heq. now apply in_map.
  - assert (Hne : key a <> key j).
    { intros Heq. apply Hnotin. rewrite Heq. now apply in_map. }
    apply Z.eqb_neq in Hne. rewrite Hne. cbn [negb length]. f_equal.
    now apply IH.
Qed.

(** The poems a creating loop has numbered from [c] on: those of the list
    [writers], in order. *)
Lemma numbered_poems {A} (writers : list A) (c c' : Z) (s' : MemStorage)
      (poemOf : Z -> A -> Poem.t) :
  c' = c + Z.of_nat (length writers) ->
  (forall i x, nth_error writers i = Some x ->
               getPoem (c + Z.of_nat i) s' = Some (poemOf (c + Z.of_nat i) x)) ->
  (forall k, c <= k < c' ->
             exists x, In x writers /\ getPoem k s' = Some (poemOf k x)) /\
  (forall x, In x writers ->
             exists k, c <= k < c' /\ getPoem k s' = Some (poemOf k x)).
Proof.
  intros Hc' Hpoems. split.
  - intros k Hk.
    destruct (nth_error writers (Z.to_nat (k - c))) as [x|] eqn:Hnth.
    + exists x. split; [now apply nth_error_In in Hnth|].
      specialize (Hpoems _ _ Hnth).
      now replace (c + Z.of_nat (Z.to_nat (k - c))) with k in Hpoems by lia.
    + apply nth_error_None in Hnth. lia.
  - intros x Hx. apply In_nth_error in Hx. destruct Hx as [i Hi].
    exists (c + Z.of_nat i). split; [|now apply Hpoems].
    assert (i < length writers)%nat by (apply nth_error_Some; congruence).
    lia.
Qed.

(** X10.  An accepted create-game request with distinct player ids gives
    round 1 exactly one poem per id other than the host's:
    [playerIds.length - 1] new poems, each empty and not submitted, each
    carrying an id of the request that is not the host's, and each such id
    on one of them.  The judge of round 1 has no poem. *)
Theorem postGames_one_poem_per_writer
        (randomIndex : RandomSource) (now : Z) (name : string)
        (totalRounds : Z) (playerIds : list Z) (s : MemStorage) :
  validCreateGameRequest name totalRounds playerIds = true ->
  NoDup playerIds ->
  let s' := fst (run (postGames randomIndex now name totalRounds playerIds) s) in
  let hostId := nth 0 playerIds 0 in
  poemIdCounter s' = poemIdCounter s + Z.of_nat (length playerIds) - 1 /\
  (forall k, poemIdCounter s <= k < poemIdCounter s' ->
             exists userId,
               In userId playerIds /\ userId <> hostId /\
               getPoem k s'
               = Some (Poem.mk k (roundIdCounter s) userId [] false None)) /\
  (forall userId,
      In userId playerIds -> userId <> hostId ->
      exists k, poemIdCounter s <= k < poemIdCounter s' /\
                getPoem k s'
                = Some (Poem.mk k (roundIdCounter s) userId [] false None)).
Proof.
  intros Hvalid Hnd. cbv zeta.
  destruct (postGames_created randomIndex now name totalRounds playerIds s
                              Hvalid)
    as (_ & _ & _ & Hcount & Hpoems).
  cbv zeta in Hcount, Hpoems.
  set (hostId := nth 0 playerIds 0) in *.
  set (writers := filter (fun playerId => negb (playerId =? hostId)) playerIds)
    in *.
  assert (Hhost : In hostId playerIds).
  { apply validCreateGameRequest_bounds in Hvalid.
    subst hostId. destruct playerIds as [|h rest]; [simpl in Hvalid; lia|].
    now left. }
  assert (Hlen : S (length writers) = length playerIds).
  { apply (filter_out_one (fun playerId : Z => playerId) playerIds hostId);
      [now rewrite map_id | exact Hhost]. }
  destruct (numbered_poems
              writers (poemIdCounter s) _ _
              (fun k userId => Poem.mk k (roundIdCounter s) userId [] false None)
              Hcount Hpoems) as [Hall Heach].
  split; [rewrite Hcount; lia|]. split.
  - intros k Hk. destruct (Hall k Hk) as (userId & Hin & Hget).
    exists userId. apply filter_In in Hin. destruct Hin as [Hin Hne].
    apply negb_true_iff, Z.eqb_neq in Hne. tauto.
  - intros userId Hin Hne. apply Heach. apply filter_In.
    split; [exact Hin|]. now apply negb_true_iff, Z.eqb_neq.
Qed.

Lemma postGames_one_poem_per_writer_witness :
  poemIdCounter (fst (run (postGames firstIndex 1000 "Trio" 3 [3; 1; 2])
                          newMemStorage))
  = 3.
Proof.
  pose proof (postGames_one_poem_per_writer
                firstIndex 1000 "Trio" 3 [3; 1; 2] newMemStorage eq_refl) as H.
  cbv zeta in H. destruct H as [H _].
  - repeat constructor; simpl; intuition lia.
  - exact H.
Defined.

Lemma nextJudge_in_roster (game : Game.t) (players : list Player.t)
      (nextJudgeIndex : Z) (judge : Player.t) :
  nextJudge game players = inr (nextJudgeIndex, judge) -> In judge players.
Proof.
  unfold nextJudge.
  destruct (Z.of_nat (length players) <? 2); [discriminate|].
  destruct (Z.rem (Game.currentJudgeIndex game + 1)
                  (Z.of_nat (length players)) <? 0); [discriminate|].
  destruct (nth_error players _) as [p|] eqn:Hnth; [|discriminate].
  intros Heq. inversion Heq; subst. now apply nth_error_In in Hnth.
Qed.

(** X11.  A next-round request that starts a round on a roster whose
    players belong to distinct users gives the new round exactly one poem
    per player other than the judge: [rosterSize - 1] new poems, each
    empty and not submitted, each carrying the record id of a roster
    player whose user is not the judge, and each such player on one of
    them. *)
Theorem postGameNextRound_one_poem_per_writer
        (randomIndex : RandomSource) (gameId : Z) (s : MemStorage)
        (game : Game.t) (nextJudgeIndex : Z) (judge : Player.t) :
  getGame gameId s = Some game ->
  Game.currentRound game < Game.totalRounds game ->
  nextJudge game (getPlayersByGame gameId s) = inr (nextJudgeIndex, judge) ->
  NoDup (map Player.userId (getPlayersByGame gameId s)) ->
  let s' := fst (run (postGameNextRound randomIndex gameId) s) in
  let roster := getPlayersByGame gameId s in
  poemIdCounter s' = poemIdCounter s + Z.of_nat (length roster) - 1 /\
  (forall k, poemIdCounter s <= k < poemIdCounter s' ->
             exists player,
               In player roster /\
               Player.userId player <> Player.userId judge /\
               getPoem k s'
               = Some (Poem.mk k (roundIdCounter s) (Player.id player) []
                               false None)) /\
  (forall player,
      In player roster -> Player.userId player <> Player.userId judge ->
      exists k, poemIdCounter s <= k < poemIdCounter s' /\
                getPoem k s'
                = Some (Poem.mk k (roundIdCounter s) (Player.id player) []
                                false None)).
Proof.
  intros Hgame Hmore Hjudge Hnd. cbv zeta.
  destruct (postGameNextRound_started randomIndex gameId s game
                                      nextJudgeIndex judge Hgame Hmore Hjudge)
    as (_ & _ & _ & _ & Hcount & Hpoems).
  cbv zeta in Hcount, Hpoems.
  set (roster := getPlayersByGame gameId s) in *.
  set (writers :=
         filter (fun player =>
                   negb (Player.userId player =? Player.userId judge))
                roster) in *.
  assert (Hlen : S (length writers) = length roster).
  { apply (filter_out_one Player.userId roster judge Hnd).
    exact (nextJudge_in_roster _ _ _ _ Hjudge). }
  destruct (numbered_poems
              writers (poemIdCounter s) _ _
              (fun k player =>
                 Poem.mk k (roundIdCounter s) (Player.id player) [] false None)
              Hcount Hpoems) as [Hall Heach].
  split; [rewrite Hcount; lia|]. split.
  - intros k Hk. destruct (Hall k Hk) as (player & Hin & Hget).
    exists player. apply filter_In in Hin. destruct Hin as [Hin Hne].
    apply negb_true_iff, Z.eqb_neq in Hne. tauto.
  - intros player Hin Hne. apply Heach. apply filter_In.
    split; [exact Hin|]. now apply negb_true_iff, Z.eqb_neq.
Qed.

Lemma postGameNextRound_one_poem_per_writer_witness :
  poemIdCounter (fst (run (postGameNextRound firstIndex 1) afterWinner)) = 3.
Proof.
  pose proof (postGameNextRound_one_poem_per_writer
                firstIndex 1 afterWinner
                (Game.mk 1 "Poets" 2 1 3 0 GameStatus.waiting 1000)
                1 (Player.mk 2 1 1 0 false) eq_refl) as H.
  cbv zeta in H. destruct H as [H _].
  - by_eval.
  - reflexivity.
  - vm_compute. repeat constructor; simpl; intuition discriminate.
  - exact H.
Defined.

(** ** Drawing the whole pool, and the two ways to ask for words *)

Lemma generateRandomWords_length (randomIndex : RandomSource) (count : Z) :
  in_range randomIndex ->
  length (generateRandomWords randomIndex count)
  = Nat.min (Z.to_nat count) (length poeticWords).
Proof.
  intros Hrange. unfold generateRandomWords.
  now rewrite (drawLoop_length randomIndex Hrange).
Qed.

(** X12.  A draw of as many words as the pool holds, or more, returns the
    whole pool in some order, each word once; a draw of zero or fewer
    words returns nothing. *)
Theorem generateRandomWords_whole_pool_or_nothing
        (randomIndex : RandomSource) (count : Z) :
  in_range randomIndex ->
  (Z.of_nat (length poeticWords) <= count ->
   Permutation (generateRandomWords randomIndex count) poeticWords) /\
  (count <= 0 -> generateRandomWords randomIndex count = []).
Proof.
  intros Hrange. split.
  - intros Hcount.
    destruct (drawLoop_permutation randomIndex Hrange (Z.to_nat count) 0
                                   poeticWords []) as [rest Hperm].
    fold (generateRandomWords randomIndex count) in Hperm.
    simpl app in Hperm.
    pose proof (Permutation_length Hperm) as Hlen.
    rewrite length_app, (generateRandomWords_length _ _ Hrange) in Hlen.
    rewrite poeticWords_length in Hlen, Hcount.
    assert (Hrest : rest = [])
      by (destruct rest; [reflexivity | cbn [length] in Hlen; lia]).
    rewrite Hrest, app_nil_r in Hperm. exact Hperm.
  - intros Hcount. unfold generateRandomWords.
    replace (Z.to_nat count) with 0%nat by lia. reflexivity.
Qed.

Lemma generateRandomWords_whole_pool_or_nothing_witness :
  Permutation (generateRandomWords firstIndex 500) poeticWords /\
  generateRandomWords firstIndex (-3) = [].
Proof.
  destruct (generateRandomWords_whole_pool_or_nothing
              firstIndex 500 firstIndex_in_range) as [Hall _].
  destruct (generateRandomWords_whole_pool_or_nothing
              firstIndex (-3) firstIndex_in_range) as [_ Hnone].
  split; [apply Hall; rewrite poeticWords_length; lia | apply Hnone; lia].
Defined.

(** X13.  The random-words request always answers 200.  A count that is
    absent, not a number or zero is replaced by 5, so the answer then
    holds five words; a negative count yields no word, and a positive one
    yields [count] words, capped at the size of the pool.  The client
    wrapper replaces an omitted count only: asked for zero words it
    returns none. *)
Theorem random_words_count_defaults
        (randomIndex : RandomSource) (count : option Z) :
  in_range randomIndex ->
  let answer := getRandomWordsRoute randomIndex count in
  fst answer = 200 /\
  (count = None \/ count = Some 0 -> length (snd answer) = 5%nat) /\
  (forall c, count = Some c -> c < 0 -> snd answer = []) /\
  (forall c, count = Some c -> 0 < c ->
             Z.of_nat (length (snd answer))
             = Z.min c (Z.of_nat (length poeticWords))) /\
  getRandomWords randomIndex (Some 0) = [] /\
  length (getRandomWords randomIndex None) = 5%nat.
Proof.
  intros Hrange. cbv zeta. unfold getRandomWordsRoute, getRandomWords.
  cbn [fst snd]. split; [reflexivity|]. split; [|split; [|split; [|split]]].
  - intros [-> | ->]; cbn [Z.eqb];
      rewrite (generateRandomWords_length _ _ Hrange); reflexivity.
  - intros c -> Hc.
    assert ((c =? 0) = false) as -> by (apply Z.eqb_neq; lia).
    unfold generateRandomWords. replace (Z.to_nat c) with 0%nat by lia.
    reflexivity.
  - intros c -> Hc.
    assert ((c =? 0) = false) as -> by (apply Z.eqb_neq; lia).
    rewrite (generateRandomWords_length _ _ Hrange). lia.
  - reflexivity.
  - rewrite (generateRandomWords_length _ _ Hrange). reflexivity.
Qed.

Lemma random_words_count_defaults_witness :
  length (snd (getRandomWordsRoute firstIndex (Some 0))) = 5%nat /\
  Z.of_nat (length (snd (getRandomWordsRoute firstIndex (Some 7)))) = 7.
Proof.
  pose proof (random_words_count_defaults
                firstIndex (Some 0) firstIndex_in_range) as H0.
  pose proof (random_words_count_defaults
                firstIndex (Some 7) firstIndex_in_range) as H7.
  cbv zeta in H0, H7.
  destruct H0 as (_ & H0 & _). destruct H7 as (_ & _ & _ & H7 & _).
  split.
  - apply H0. now right.
  - rewrite (H7 7 eq_refl); [rewrite poeticWords_length|]; lia.
Defined.

(** ** The player announced at the end *)

Lemma overallWinner_fold (first : Player.t) (rest : list Player.t) :
  let pick := fun prev current : Player.t =>
                if Player.score current <? Player.score prev
                then prev else current in
  let winner := fold_left pick rest first in
  exists before after,
    first :: rest = before ++ winner :: after /\
    (forall p, In p before -> Player.score p <= Player.score winner) /\
    (forall p, In p after -> Player.score p < Player.score winner).
Proof.
  cbv zeta. induction rest as [|current rest IH] using rev_ind.
  - exists [], []. cbn. repeat split; intros p [].
  - rewrite fold_left_app. cbn [fold_left].
    destruct IH as (before & after & Hsplit & Hbefore & Hafter).
    set (winner := fold_left _ rest first) in *.
    destruct (Player.score current <? Player.score winner) eqn:Hlt.
    + apply Z.ltb_lt in Hlt.
      exists before, (after ++ [current]). repeat split.
      * change (first :: rest ++ [current]) with ((first :: rest) ++ [current]).
        rewrite Hsplit, <- app_assoc. reflexivity.
      * exact Hbefore.
      * intros p Hp. apply in_app_or in Hp.
        destruct Hp as [Hp | [<- | []]]; [now apply Hafter | exact Hlt].
    + apply Z.ltb_ge in Hlt.
      exists (first :: rest), []. repeat split.
      * intros p Hp. rewrite Hsplit in Hp. apply in_app_or in Hp.
        destruct Hp as [Hp | [<- | Hp]].
        -- specialize (Hbefore p Hp). lia.
        -- exact Hlt.
        -- specialize (Hafter p Hp). lia.
      * intros p [].
Qed.

(** X14.  The player announced when the game is over has the highest
    score of the list, and a tie goes to the last of the tied players:
    everyone listed before the announced player has at most that score,
    everyone listed after has less.  An empty list yields no player (the
    reduction throws). *)
Theorem overallWinner_is_last_of_the_best (players : list Player.t) :
  (players = [] -> overallWinner players = None) /\
  (players <> [] ->
   exists winner before after,
     overallWinner players = Some winner /\
     players = before ++ winner :: after /\
     (forall p, In p before -> Player.score p <= Player.score winner) /\
     (forall p, In p after -> Player.score p < Player.score winner)).
Proof.
  split.
  - now intros ->.
  - intros Hne. destruct players as [|first rest]; [congruence|].
    destruct (overallWinner_fold first rest)
      as (before & after & Hsplit & Hbefore & Hafter).
    cbv zeta in *. eexists. exists before, after.
    split; [reflexivity|]. split; [exact Hsplit|]. split; assumption.
Qed.

Lemma overallWinner_is_last_of_the_best_witness :
  overallWinner [Player.mk 1 1 4 2 true; Player.mk 2 1 5 2 false;
                 Player.mk 3 1 6 1 false]
  = Some (Player.mk 2 1 5 2 false).
Proof.
  destruct (proj2 (overallWinner_is_last_of_the_best
                     [Player.mk 1 1 4 2 true; Player.mk 2 1 5 2 false;
                      Player.mk 3 1 6 1 false]))
    as (winner & before & after & Hwinner & _).
  - discriminate.
  - reflexivity.
Defined.

(** ** Creating users *)

Lemma find_app {A} (p : A -> bool) (l1 l2 : list A) :
  find p (l1 ++ l2)
  = match find p l1 with Some x => Some x | None => find p l2 end.
Proof.
  induction l1 as [|a l1 IH]; cbn [app find]; [reflexivity|].
  now destruct (p a).
Qed.

Lemma getUserByUsername_none (username : string) (s : MemStorage) :
  getUserByUsername username s = None <->
  ~ In username (map User.username (JsMap.values (users s))).
Proof.
  unfold getUserByUsername. split.
  - intros Hnone Hin. apply in_map_iff in Hin.
    destruct Hin as (user & Hname & Hin).
    pose proof (find_none _ _ Hnone user Hin) as Hno. cbn in Hno.
    rewrite Hname, String.eqb_refl in Hno. discriminate.
  - intros Hnot.
    destruct (find _ (JsMap.values (users s))) as [user|] eqn:Hfind;
      [|reflexivity].
    apply find_some in Hfind. destruct Hfind as [Hin Hname].
    apply String.eqb_eq in Hname. exfalso. apply Hnot.
    rewrite <- Hname. now apply in_map.
Qed.

Lemma createUser_appends (username password : string) (s : MemStorage) :
  wellFormed s ->
  users (fst (createUser username password s))
  = users s ++ [(userIdCounter s, User.mk (userIdCounter s) username password)].
Proof.
  intros (Hu & _). unfold createUser. cbn.
  apply set_fresh. exact (mapOk_fresh _ _ _ _ Hu (Z.le_refl _)).
Qed.

(** X15.  The create-user request: without a name or a password (absent
    or empty) it answers 400; with a name some user already has, 409; in
    both cases the store is untouched.  Otherwise, on a store in order, it
    answers 201 with the next user id and the name, without the password,
    and the new user is then found under that id and under that name. *)
Theorem postUsers_outcomes
        (username password : option string) (s : MemStorage) :
  wellFormed s ->
  let s' := fst (postUsers username password s) in
  let answer := snd (postUsers username password s) in
  (falsyField username = true \/ falsyField password = true ->
   s' = s /\
   answer = (400, UsersMessage "Username and password are required")) /\
  (forall name pass,
      username = Some name -> password = Some pass ->
      name <> "" -> pass <> "" ->
      (getUserByUsername name s <> None ->
       s' = s /\ answer = (409, UsersMessage "Username already taken")) /\
      (getUserByUsername name s = None ->
       answer = (201, UsersCreated (userIdCounter s) name) /\
       userIdCounter s' = userIdCounter s + 1 /\
       getUser (userIdCounter s) s'
       = Some (User.mk (userIdCounter s) name pass) /\
       getUserByUsername name s'
       = Some (User.mk (userIdCounter s) name pass))).
Proof.
  intros Hs. cbv zeta. unfold postUsers. split.
  - intros Hfalsy.
    assert (falsyField username || falsyField password = true) as ->
        by (apply orb_true_iff; exact Hfalsy).
    now split.
  - intros name pass -> -> Hname Hpass. cbn [falsyField].
    apply String.eqb_neq in Hname, Hpass. rewrite Hname, Hpass. cbn [orb].
    split.
    + intros Htaken. destruct (getUserByUsername name s); [now split | congruence].
    + intros Hfree. rewrite Hfree. cbn [fst snd].
      split; [reflexivity|]. split; [reflexivity|]. split.
      * unfold getUser, createUser. cbn. apply JsMapFacts.get_set_eq.
      * unfold getUserByUsername in *.
        rewrite (createUser_appends name pass s Hs).
        unfold JsMap.values in *. rewrite map_app, find_app, Hfree.
        cbn. now rewrite String.eqb_refl.
Qed.

Lemma postUsers_outcomes_witness :
  snd (postUsers (Some "Ada") (Some "secret") newMemStorage)
  = (201, UsersCreated 6 "Ada") /\
  snd (postUsers (Some "Emma") (Some "secret") newMemStorage)
  = (409, UsersMessage "Username already taken") /\
  snd (postUsers (Some "Ada") None newMemStorage)
  = (400, UsersMessage "Username and password are required").
Proof.
  pose proof (postUsers_outcomes (Some "Ada") (Some "secret") newMemStorage
                                 newMemStorage_wellFormed) as Hada.
  pose proof (postUsers_outcomes (Some "Emma") (Some "secret") newMemStorage
                                 newMemStorage_wellFormed) as Hemma.
  pose proof (postUsers_outcomes (Some "Ada") None newMemStorage
                                 newMemStorage_wellFormed) as Hnone.
  cbv zeta in Hada, Hemma, Hnone.
  split; [|split].
  - apply (proj2 Hada "Ada" "secret"); try reflexivity; discriminate.
  - apply (proj2 Hemma "Emma" "secret"); try reflexivity; discriminate.
  - apply (proj1 Hnone). now right.
Defined.

(** Every operation of the store but [createUser] leaves the users
    alone. *)
Ltac users_untouched :=
  intros s _; split; [exact I|]; unfold sameUsers, exec;
  cbv beta delta [createGame updateGame addPlayerToGame updatePlayerScore
                  createRound updateRoundStatus setRoundWinner
                  updateRoundEndTime createPoem updatePoem submitPoem];
  repeat match goal with
         | |- context [match ?x with Some _ => _ | None => _ end] => destruct x
         end;
  split; reflexivity.

Lemma sameUsers_refl (s : MemStorage) : sameUsers s s.
Proof. now split. Qed.

Lemma sameUsers_trans (s1 s2 s3 : MemStorage) :
  sameUsers s1 s2 -> sameUsers s2 s3 -> sameUsers s1 s3.
Proof. unfold sameUsers. intros [? ?] [? ?]. split; congruence. Qed.

Lemma createGame_sameUsers (now : Z) (name : string) (createdBy totalRounds : Z) :
  respects anyStore sameUsers (exec (createGame now name createdBy totalRounds)).
Proof. users_untouched. Qed.

Lemma updateGame_sameUsers (id : Z) (updates : GameUpdates) :
  respects anyStore sameUsers (exec (updateGame id updates)).
Proof. users_untouched. Qed.

Lemma addPlayerToGame_sameUsers (gameId userId : Z) (isHost : bool) :
  respects anyStore sameUsers (exec (addPlayerToGame gameId userId isHost)).
Proof. users_untouched. Qed.

Lemma updatePlayerScore_sameUsers (playerId increment : Z) :
  respects anyStore sameUsers (exec (updatePlayerScore playerId increment)).
Proof. users_untouched. Qed.

Lemma createRound_sameUsers (gameId roundNumber judgeId : Z)
      (words : list string) (timeLimit : Z) :
  respects anyStore sameUsers
           (exec (createRound gameId roundNumber judgeId words timeLimit)).
Proof. users_untouched. Qed.

Lemma updateRoundStatus_sameUsers (id : Z) (status : RoundStatus.t) :
  respects anyStore sameUsers (exec (updateRoundStatus id status)).
Proof. users_untouched. Qed.

Lemma setRoundWinner_sameUsers (id winnerId : Z) :
  respects anyStore sameUsers (exec (setRoundWinner id winnerId)).
Proof. users_untouched. Qed.

Lemma updateRoundEndTime_sameUsers (id endTime : Z) :
  respects anyStore sameUsers (exec (updateRoundEndTime id endTime)).
Proof. users_untouched. Qed.

Lemma createPoem_sameUsers (roundId playerId : Z) (content : JsString) :
  respects anyStore sameUsers (exec (createPoem roundId playerId content)).
Proof. users_untouched. Qed.

Lemma updatePoem_sameUsers (id : Z) (content : JsString) :
  respects anyStore sameUsers (exec (updatePoem id content)).
Proof. users_untouched. Qed.

Lemma submitPoem_sameUsers (now id : Z) :
  respects anyStore sameUsers (exec (submitPoem now id)).
Proof. users_untouched. Qed.

Ltac walk_users :=
  repeat first
    [ apply (respects_bind anyStore sameUsers sameUsers_trans); [|intros ?]
    | apply (respects_query anyStore sameUsers sameUsers_refl)
    | apply (respects_reply anyStore sameUsers sameUsers_refl)
    | apply (respects_ret anyStore sameUsers sameUsers_refl)
    | apply (respects_early anyStore sameUsers sameUsers_refl)
    | apply (respects_when anyStore sameUsers sameUsers_refl)
    | apply (respects_forEach anyStore sameUsers sameUsers_refl
                              sameUsers_trans); intros ?
    | apply createGame_sameUsers | apply updateGame_sameUsers
    | apply addPlayerToGame_sameUsers | apply updatePlayerScore_sameUsers
    | apply createRound_sameUsers | apply updateRoundStatus_sameUsers
    | apply setRoundWinner_sameUsers | apply updateRoundEndTime_sameUsers
    | apply createPoem_sameUsers | apply updatePoem_sameUsers
    | apply submitPoem_sameUsers
    | match goal with
      | |- respects _ _ (match ?x with _ => _ end) => destruct x
      | |- respects _ _ (if ?b then _ else _) => destruct b
      end ].

Lemma postUsers_uniqueNames (username password : option string) (s : MemStorage) :
  wellFormed s -> uniqueNames s ->
  uniqueNames (fst (postUsers username password s)).
Proof.
  intros Hs Hunique. unfold postUsers.
  destruct (falsyField username || falsyField password); [exact Hunique|].
  destruct username as [name|]; [|exact Hunique].
  destruct password as [pass|]; [|exact Hunique].
  destruct (getUserByUsername name s) eqn:Hfree; [exact Hunique|].
  cbn [fst]. unfold uniqueNames in *.
  rewrite (createUser_appends name pass s Hs).
  unfold JsMap.values. rewrite !map_app. cbn [map snd User.username].
  apply NoDup_app; [exact Hunique | repeat constructor; intros [] |].
  intros other Hin [<- | []].
  now apply getUserByUsername_none in Hfree.
Qed.

Lemma serve_uniqueNames (request : Request) (s : MemStorage) :
  wellFormed s -> uniqueNames s -> uniqueNames (serve request s).
Proof.
  intros Hs Hunique.
  assert (Hsame : forall m : Route Response,
             respects anyStore sameUsers m -> uniqueNames (fst (run m s))).
  { intros m Hm. destruct (Hm s I) as [_ [Husers _]].
    unfold uniqueNames, run. cbn [fst]. now rewrite Husers. }
  destruct request; cbn [serve].
  - now apply postUsers_uniqueNames.
  - apply Hsame. unfold postGames. cbv zeta. walk_users.
  - apply Hsame. unfold getGameById. walk_users.
  - apply Hsame. unfold putRoundStatus. walk_users.
  - apply Hsame. unfold putPoem. walk_users.
  - apply Hsame. unfold postPoemSubmit. walk_users.
  - apply Hsame. unfold postRoundWinner. cbv zeta. walk_users.
  - apply Hsame. unfold postGameNextRound. cbv zeta. walk_users.
Qed.

Lemma newMemStorage_uniqueNames : uniqueNames newMemStorage.
Proof.
  unfold uniqueNames. vm_compute.
  repeat constructor; simpl; intuition discriminate.
Qed.

(** X16.  User names stay unique: whatever requests a server has answered
    since its start, no two users of its store have the same name; and the
    requests keep the names unique from any store in order that has them
    unique. *)
Theorem usernames_stay_unique (requests : list Request) :
  uniqueNames (serveAll requests newMemStorage) /\
  (forall s, wellFormed s -> uniqueNames s ->
             uniqueNames (serveAll requests s)).
Proof.
  assert (Hall : forall s, wellFormed s -> uniqueNames s ->
                           uniqueNames (serveAll requests s)).
  { induction requests as [|request requests IH]; intros s Hs Hunique.
    - exact Hunique.
    - cbn [serveAll fold_left]. apply IH.
      + exact (proj1 (serve_respects request s Hs)).
      + now apply serve_uniqueNames. }
  split; [|exact Hall].
  apply Hall; [exact newMemStorage_wellFormed | exact newMemStorage_uniqueNames].
Qed.

Lemma usernames_stay_unique_witness :
  uniqueNames (serveAll [PostUsers (Some "Ada") (Some "secret");
                         PostUsers (Some "Ada") (Some "other")]
                        newMemStorage).
Proof.
  exact (proj2 (usernames_stay_unique
                  [PostUsers (Some "Ada") (Some "secret");
                   PostUsers (Some "Ada") (Some "other")])
               newMemStorage newMemStorage_wellFormed
               newMemStorage_uniqueNames).
Defined.

(** ** Games stay within their rounds *)

Ltac games_untouched :=
  intros s _; split; [exact I|]; unfold sameGames, exec;
  cbv beta delta [addPlayerToGame updatePlayerScore
                  createRound updateRoundStatus setRoundWinner
                  updateRoundEndTime createPoem updatePoem submitPoem];
  repeat match goal with
         | |- context [match ?x with Some _ => _ | None => _ end] => destruct x
         end;
  reflexivity.

Lemma sameGames_refl (s : MemStorage) : sameGames s s.
Proof. reflexivity. Qed.

Lemma sameGames_trans (s1 s2 s3 : MemStorage) :
  sameGames s1 s2 -> sameGames s2 s3 -> sameGames s1 s3.
Proof. unfold sameGames. congruence. Qed.

Lemma addPlayerToGame_sameGames (gameId userId : Z) (isHost : bool) :
  respects anyStore sameGames (exec (addPlayerToGame gameId userId isHost)).
Proof. games_untouched. Qed.

Lemma updatePlayerScore_sameGames (playerId increment : Z) :
  respects anyStore sameGames (exec (updatePlayerScore playerId increment)).
Proof. games_untouched. Qed.

Lemma createRound_sameGames (gameId roundNumber judgeId : Z)
      (words : list string) (timeLimit : Z) :
  respects anyStore sameGames
           (exec (createRound gameId roundNumber judgeId words timeLimit)).
Proof. games_untouched. Qed.

Lemma updateRoundStatus_sameGames (id : Z) (status : RoundStatus.t) :
  respects anyStore sameGames (exec (updateRoundStatus id status)).
Proof. games_untouched. Qed.

Lemma setRoundWinner_sameGames (id winnerId : Z) :
  respects anyStore sameGames (exec (setRoundWinner id winnerId)).
Proof. games_untouched. Qed.

Lemma updateRoundEndTime_sameGames (id endTime : Z) :
  respects anyStore sameGames (exec (updateRoundEndTime id endTime)).
Proof. games_untouched. Qed.

Lemma createPoem_sameGames (roundId playerId : Z) (content : JsString) :
  respects anyStore sameGames (exec (createPoem roundId playerId content)).
Proof. games_untouched. Qed.

Lemma updatePoem_sameGames (id : Z) (content : JsString) :
  respects anyStore sameGames (exec (updatePoem id content)).
Proof. games_untouched. Qed.

Lemma submitPoem_sameGames (now id : Z) :
  respects anyStore sameGames (exec (submitPoem now id)).
Proof. games_untouched. Qed.

Ltac walk_games :=
  repeat first
    [ apply (respects_bind anyStore sameGames sameGames_trans); [|intros ?]
    | apply (respects_query anyStore sameGames sameGames_refl)
    | apply (respects_reply anyStore sameGames sameGames_refl)
    | apply (respects_ret anyStore sameGames sameGames_refl)
    | apply (respects_early anyStore sameGames sameGames_refl)
    | apply (respects_when anyStore sameGames sameGames_refl)
    | apply (respects_forEach anyStore sameGames sameGames_refl
                              sameGames_trans); intros ?
    | apply addPlayerToGame_sameGames | apply updatePlayerScore_sameGames
    | apply createRound_sameGames | apply updateRoundStatus_sameGames
    | apply setRoundWinner_sameGames | apply updateRoundEndTime_sameGames
    | apply createPoem_sameGames | apply updatePoem_sameGames
    | apply submitPoem_sameGames
    | match goal with
      | |- respects _ _ (match ?x with _ => _ end) => destruct x
      | |- respects _ _ (if ?b then _ else _) => destruct b
      end ].

Lemma gamesInBounds_set (s s' : MemStorage) (gameId : Z) (game : Game.t) :
  gamesInBounds s -> gameInBounds game ->
  games s' = JsMap.set gameId game (games s) ->
  gamesInBounds s'.
Proof.
  intros Hs Hgame Hset k g. unfold getGame. rewrite Hset.
  destruct (Z.eq_dec k gameId) as [-> | Hne].
  - rewrite JsMapFacts.get_set_eq. intros Heq. now inversion Heq; subst.
  - rewrite JsMapFacts.get_set_neq by exact Hne. apply Hs.
Qed.

Lemma gamesInBounds_same (s s' : MemStorage) :
  gamesInBounds s -> games s' = games s -> gamesInBounds s'.
Proof. intros Hs Heq k g. unfold getGame. rewrite Heq. apply Hs. Qed.

Lemma postGames_gamesInBounds
      (randomIndex : RandomSource) (now : Z) (name : string) (totalRounds : Z)
      (playerIds : list Z) (s : MemStorage) :
  gamesInBounds s ->
  gamesInBounds
    (fst (run (postGames randomIndex now name totalRounds playerIds) s)).
Proof.
  intros Hs. unfold postGames, run.
  destruct (validCreateGameRequest name totalRounds playerIds) eqn:Hvalid;
    cbn [negb fst]; [|exact Hs].
  apply validCreateGameRequest_bounds in Hvalid.
  cbv zeta. rewrite bind_exec.
  set (s1 := fst (createGame now name (nth 0 playerIds 0) totalRounds s)).
  match goal with
  | |- gamesInBounds (fst (?rest s1)) =>
      assert (Hrest : respects anyStore sameGames rest) by walk_games;
      destruct (Hrest s1 I) as [_ Hgames]
  end.
  apply (gamesInBounds_set
           s _ (gameIdCounter s)
           (Game.mk (gameIdCounter s) name (nth 0 playerIds 0) 1 totalRounds 0
                    GameStatus.waiting now) Hs).
  - unfold gameInBounds. cbn. repeat split; try lia. discriminate.
  - rewrite Hgames. reflexivity.
Qed.

Lemma postGameNextRound_gamesInBounds
      (randomIndex : RandomSource) (gameId : Z) (s : MemStorage) :
  gamesInBounds s ->
  gamesInBounds (fst (run (postGameNextRound randomIndex gameId) s)).
Proof.
  intros Hs. unfold postGameNextRound, run. cbn [fst].
  rewrite bind_query.
  destruct (getGame gameId s) as [game|] eqn:Hgame; [|exact Hs].
  destruct (Hs gameId game Hgame) as (Hround & Htotal & Hidx & Hstatus).
  destruct (Game.totalRounds game <=? Game.currentRound game) eqn:Hover.
  - rewrite bind_exec. unfold reply. cbn [fst].
    unfold updateGame. unfold getGame in Hgame. rewrite Hgame. cbn [fst].
    apply (gamesInBounds_set
             s _ gameId
             (applyUpdates game
                (mkGameUpdates (Some GameStatus.completed) None None)) Hs);
      [|reflexivity].
    unfold gameInBounds. cbn. repeat split; try lia. discriminate.
  - apply Z.leb_gt in Hover. rewrite bind_query.
    destruct (nextJudge game (getPlayersByGame gameId s))
      as [response | [nextJudgeIndex judge]] eqn:Hjudge; [exact Hs|].
    cbv zeta. rewrite bind_exec.
    set (updates := mkGameUpdates None (Some (Game.currentRound game + 1))
                                  (Some nextJudgeIndex)).
    set (s1 := fst (updateGame gameId updates s)).
    match goal with
    | |- gamesInBounds (fst (?rest s1)) =>
        assert (Hrest : respects anyStore sameGames rest) by walk_games;
        destruct (Hrest s1 I) as [_ Hgames]
    end.
    apply (gamesInBounds_set s _ gameId (applyUpdates game updates) Hs).
    + assert (Hnext : 0 <= nextJudgeIndex).
      { unfold nextJudge in Hjudge.
        destruct (Z.of_nat (length (getPlayersByGame gameId s)) <? 2);
          [discriminate|].
        destruct (Z.rem (Game.currentJudgeIndex game + 1)
                        (Z.of_nat (length (getPlayersByGame gameId s))) <? 0)
          eqn:Hneg; [discriminate|].
        destruct (nth_error _ _); [|discriminate].
        inversion Hjudge; subst. now apply Z.ltb_ge in Hneg. }
      unfold gameInBounds. cbn. repeat split; try lia. exact Hstatus.
    + rewrite Hgames. subst s1. unfold updateGame.
      unfold getGame in Hgame. rewrite Hgame. reflexivity.
Qed.

Lemma serve_gamesInBounds (request : Request) (s : MemStorage) :
  gamesInBounds s -> gamesInBounds (serve request s).
Proof.
  intros Hs.
  assert (Hsame : forall m : Route Response,
             respects anyStore sameGames m -> gamesInBounds (fst (run m s))).
  { intros m Hm. destruct (Hm s I) as [_ Hgames].
    now apply (gamesInBounds_same s). }
  destruct request; cbn [serve].
  - apply (gamesInBounds_same s _ Hs). unfold postUsers.
    destruct (falsyField username || falsyField password); [reflexivity|].
    destruct username; [|reflexivity]. destruct password; [|reflexivity].
    now destruct (getUserByUsername s0 s).
  - now apply postGames_gamesInBounds.
  - apply Hsame. unfold getGameById. walk_games.
  - apply Hsame. unfold putRoundStatus. walk_games.
  - apply Hsame. unfold putPoem. walk_games.
  - apply Hsame. unfold postPoemSubmit. walk_games.
  - apply Hsame. unfold postRoundWinner. cbv zeta. walk_games.
  - now apply postGameNextRound_gamesInBounds.
Qed.

(** X17.  Whatever requests a server has answered since its start, every
    game of its store is within its rounds: the current round is at least
    1 and at most the total, the total is at most 10, the judge index is
    not negative, and the status is waiting or completed (no request ever
    makes a game active).  The requests keep this from any store that has
    it. *)
Theorem games_stay_within_their_rounds (requests : list Request) :
  gamesInBounds (serveAll requests newMemStorage) /\
  (forall s, gamesInBounds s -> gamesInBounds (serveAll requests s)).
Proof.
  assert (Hall : forall s, gamesInBounds s ->
                           gamesInBounds (serveAll requests s)).
  { induction requests as [|request requests IH]; intros s Hs.
    - exact Hs.
    - cbn [serveAll fold_left]. apply IH. now apply serve_gamesInBounds. }
  split; [|exact Hall].
  apply Hall. intros k g Hget. discriminate.
Qed.

Lemma games_stay_within_their_rounds_witness :
  gamesInBounds (serveAll [PostGameNextRound firstIndex 1;
                           PostGameNextRound firstIndex 1;
                           PostGameNextRound firstIndex 1]
                          oneRoundGame).
Proof.
  apply (proj2 (games_stay_within_their_rounds
                  [PostGameNextRound firstIndex 1;
                   PostGameNextRound firstIndex 1;
                   PostGameNextRound firstIndex 1])).
  intros k g. unfold getGame. vm_compute.
  destruct k as [|[| |]|]; intros Heq; inversion Heq; subst.
  repeat split; discriminate.
Defined.

(** ** Drafts: the last write wins *)

Lemma set_set {V} (k : Z) (v1 v2 : V) (m : JsMap.t V) :
  JsMap.has k m = true ->
  JsMap.set k v2 (JsMap.set k v1 m) = JsMap.set k v2 m.
Proof.
  intros Hhas.
  assert (Hhas1 : JsMap.has k (JsMap.set k v1 m) = true).
  { apply JsMapFacts.has_get. exists v1. apply JsMapFacts.get_set_eq. }
  unfold JsMap.set at 1. rewrite Hhas1.
  unfold JsMap.set. rewrite Hhas. rewrite map_map.
  apply map_ext. intros [k' v']. cbn [fst].
  destruct (k' =? k) eqn:Hk; cbn [fst]; [now rewrite Z.eqb_refl | now rewrite Hk].
Qed.

(** X18.  Saving a draft twice leaves the store exactly as saving the
    second text alone: the last write wins.  With an unknown poem id
    neither request changes anything: both are answered 404 and the store
    after each is the store before. *)
Theorem putPoem_last_write_wins
        (poemId : Z) (first second : JsString) (s : MemStorage) :
  fst (run (putPoem poemId second) (fst (run (putPoem poemId first) s)))
  = fst (run (putPoem poemId second) s) /\
  (getPoem poemId s = None ->
   run (putPoem poemId first) s
   = (s, mkResponse 404 (Message "Poem not found")) /\
   run (putPoem poemId second) (fst (run (putPoem poemId first) s))
   = (s, mkResponse 404 (Message "Poem not found"))).
Proof.
  split.
  - unfold putPoem. route. unfold updatePoem.
    destruct (JsMap.get poemId (poems s)) as [poem|] eqn:Hpoem; cbn.
    + rewrite JsMapFacts.get_set_eq. cbn. unfold with_poems. cbn.
      rewrite set_set; [reflexivity|].
      apply JsMapFacts.has_get. now exists poem.
    + now rewrite Hpoem.
  - intros Hnone.
    assert (Hmiss : forall content,
               run (putPoem poemId content) s
               = (s, mkResponse 404 (Message "Poem not found"))).
    { intros content. unfold putPoem. route.
      unfold updatePoem, getPoem in *. now rewrite Hnone. }
    split; [apply Hmiss|]. rewrite (Hmiss first). cbn [fst]. apply Hmiss.
Qed.

Lemma putPoem_last_write_wins_witness :
  run (putPoem 7 (utf16 "one")) afterSubmit
  = (afterSubmit, mkResponse 404 (Message "Poem not found")) /\
  run (putPoem 7 (utf16 "two")) (fst (run (putPoem 7 (utf16 "one")) afterSubmit))
  = (afterSubmit, mkResponse 404 (Message "Poem not found")).
Proof.
  exact (proj2 (putPoem_last_write_wins 7 (utf16 "one") (utf16 "two")
                                        afterSubmit)
               eq_refl).
Defined.

(** ** The poems [allSubmitted] looks at *)

Lemma in_get_distinct {V} (k : Z) (v : V) (m : JsMap.t V) :
  NoDup (map fst m) -> In (k, v) m -> JsMap.get k m = Some v.
Proof.
  unfold JsMap.get. induction m as [|[k' v'] m IH]; intros Hnd Hin;
    [destruct Hin|].
  cbn [map fst] in Hnd. inversion Hnd as [|? ? Hnotin Hnd']; subst.
  cbn [find fst]. destruct Hin as [Heq | Hin].
  - inversion Heq; subst. now rewrite Z.eqb_refl.
  - destruct (k' =? k) eqn:Hk.
    + apply Z.eqb_eq in Hk. subst k'. exfalso. apply Hnotin.
      apply in_map_iff. now exists (k, v).
    + now apply IH.
Qed.

Lemma allSubmitted_iff_stored (roundId : Z) (s : MemStorage) :
  allSubmitted roundId s = true <->
  forall k p, In (k, p) (poems s) -> Poem.roundId p = roundId ->
              Poem.submitted p = true.
Proof.
  unfold allSubmitted, getPoemsByRound, JsMap.values.
  rewrite forallb_forall. split.
  - intros Hall k p Hin Hround. apply Hall.
    apply filter_In. split; [|now apply Z.eqb_eq].
    apply in_map_iff. now exists (k, p).
  - intros Hall p Hp. apply filter_In in Hp. destruct Hp as [Hp Hround].
    apply in_map_iff in Hp. destruct Hp as [[k p'] [Heq Hin]].
    simpl in Heq. subst p'. apply (Hall k p Hin). now apply Z.eqb_eq.
Qed.

(** C6.  [allSubmitted] holds of a round exactly when every poem the store
    holds for that round is submitted (on a store in order: every poem
    that can be read under some id).  These are the poems of the players
    who do not judge: the poems a create-game request makes belong to the
    new round and carry an id other than the id of its judge, and the
    poems a next-round request makes belong to the new round and carry the
    record id of a roster player whose user is not its judge.  When a
    round is in writing and all its other poems are submitted, submitting
    the remaining poem moves the round to judging, with no status
    request. *)
Theorem allSubmitted_iff_and_auto_judging
        (now poemId : Z) (s : MemStorage) (poem : Poem.t) (round : Round.t) :
  (forall roundId,
      allSubmitted roundId s = true <->
      forall k p, In (k, p) (poems s) -> Poem.roundId p = roundId ->
                  Poem.submitted p = true) /\
  (wellFormed s ->
   forall roundId,
     allSubmitted roundId s = true <->
     forall k p, getPoem k s = Some p -> Poem.roundId p = roundId ->
                 Poem.submitted p = true) /\
  (forall randomIndex created name totalRounds playerIds,
      wellFormed s ->
      validCreateGameRequest name totalRounds playerIds = true ->
      let s' :=
        fst (run (postGames randomIndex created name totalRounds playerIds) s) in
      let hostId := nth 0 playerIds 0 in
      option_map Round.judgeId (getRound (roundIdCounter s) s') = Some hostId /\
      forall k p,
        poemIdCounter s <= k -> getPoem k s' = Some p ->
        Poem.roundId p = roundIdCounter s /\ Poem.playerId p <> hostId) /\
  (forall randomIndex gameId game nextJudgeIndex judge,
      wellFormed s ->
      getGame gameId s = Some game ->
      Game.currentRound game < Game.totalRounds game ->
      nextJudge game (getPlayersByGame gameId s) = inr (nextJudgeIndex, judge) ->
      let s' := fst (run (postGameNextRound randomIndex gameId) s) in
      option_map Round.judgeId (getRound (roundIdCounter s) s')
      = Some (Player.userId judge) /\
      forall k p,
        poemIdCounter s <= k -> getPoem k s' = Some p ->
        Poem.roundId p = roundIdCounter s /\
        exists player,
          In player (getPlayersByGame gameId s) /\
          Player.id player = Poem.playerId p /\
          Player.userId player <> Player.userId judge) /\
  (getPoem poemId s = Some poem ->
   ~ blank (Poem.content poem) ->
   getRound (Poem.roundId poem) s = Some round ->
   Round.id round = Poem.roundId poem ->
   Round.status round = RoundStatus.writing ->
   (forall k p, In (k, p) (poems s) -> k <> poemId ->
                Poem.roundId p = Poem.roundId poem ->
                Poem.submitted p = true) ->
   let s' := fst (run (postPoemSubmit now poemId) s) in
   allSubmitted (Poem.roundId poem) s' = true /\
   option_map Round.status (getRound (Poem.roundId poem) s')
   = Some RoundStatus.judging).
Proof.
  split; [|split; [|split; [|split]]].
  - intros roundId. apply allSubmitted_iff_stored.
  - intros (_ & _ & _ & _ & [Hnd _]) roundId.
    rewrite allSubmitted_iff_stored. unfold getPoem. split.
    + intros Hall k p Hget Hround.
      apply (Hall k p); [now apply get_in | exact Hround].
    + intros Hall k p Hin Hround.
      apply (Hall k p); [now apply in_get_distinct | exact Hround].
  - intros randomIndex created name totalRounds playerIds Hs Hvalid. cbv zeta.
    destruct (postGames_created randomIndex created name totalRounds playerIds
                                s Hvalid)
      as (_ & _ & Hround & Hcount & Hpoems).
    cbv zeta in Hcount, Hpoems.
    pose proof (proj1 (postGames_respects randomIndex created name totalRounds
                                          playerIds s Hs)) as Hs'.
    change (fst (postGames randomIndex created name totalRounds playerIds s))
      with (fst (run (postGames randomIndex created name totalRounds
                                playerIds) s)) in Hs'.
    set (s' := fst (run (postGames randomIndex created name totalRounds
                                   playerIds) s)) in *.
    split; [now rewrite Hround|].
    intros k p Hk Hget.
    destruct (Z_lt_le_dec k (poemIdCounter s')) as [Hlt | Hge].
    + destruct (numbered_poems
                  _ (poemIdCounter s) _ _
                  (fun k userId =>
                     Poem.mk k (roundIdCounter s) userId [] false None)
                  Hcount Hpoems) as [Hall _].
      destruct (Hall k (conj Hk Hlt)) as (userId & Hin & Hget').
      rewrite Hget' in Hget. inversion Hget; subst p.
      split; [reflexivity|]. cbn [Poem.playerId].
      apply filter_In in Hin. destruct Hin as [_ Hne].
      now apply negb_true_iff, Z.eqb_neq in Hne.
    + destruct Hs' as (_ & _ & _ & _ & Hpo).
      unfold getPoem in Hget.
      rewrite (mapOk_fresh _ _ _ _ Hpo Hge) in Hget. discriminate.
  - intros randomIndex gameId game nextJudgeIndex judge Hs Hgame Hmore Hjudge.
    cbv zeta.
    destruct (postGameNextRound_started randomIndex gameId s game
                                        nextJudgeIndex judge Hgame Hmore Hjudge)
      as (_ & _ & Hround & _ & Hcount & Hpoems).
    cbv zeta in Hcount, Hpoems.
    pose proof (proj1 (postGameNextRound_respects randomIndex gameId s Hs))
      as Hs'.
    change (fst (postGameNextRound randomIndex gameId s))
      with (fst (run (postGameNextRound randomIndex gameId) s)) in Hs'.
    set (s' := fst (run (postGameNextRound randomIndex gameId) s)) in *.
    split; [now rewrite Hround|].
    intros k p Hk Hget.
    destruct (Z_lt_le_dec k (poemIdCounter s')) as [Hlt | Hge].
    + destruct (numbered_poems
                  _ (poemIdCounter s) _ _
                  (fun k player =>
                     Poem.mk k (roundIdCounter s) (Player.id player) []
                             false None)
                  Hcount Hpoems) as [Hall _].
      destruct (Hall k (conj Hk Hlt)) as (player & Hin & Hget').
      rewrite Hget' in Hget. inversion Hget; subst p.
      split; [reflexivity|]. exists player. cbn [Poem.playerId].
      apply filter_In in Hin. destruct Hin as [Hin Hne].
      apply negb_true_iff, Z.eqb_neq in Hne. tauto.
    + destruct Hs' as (_ & _ & _ & _ & Hpo).
      unfold getPoem in Hget.
      rewrite (mapOk_fresh _ _ _ _ Hpo Hge) in Hget. discriminate.
  - intros Hpoem Hb Hround Hid Hstatus Hothers.
    pose proof (allSubmitted_after_submit now poemId s poem Hpoem Hothers)
      as Hall.
    apply trim_truthy_iff_not_blank in Hb.
    assert (Hround1 : getRound (Poem.roundId poem)
                               (fst (submitPoem now poemId s)) = Some round).
    { unfold getRound. now rewrite submitPoem_rounds. }
    unfold postPoemSubmit. route. rewrite Hpoem, Hb. cbn [negb].
    rewrite Hround1. rewrite Hid, Hall, Hstatus.
    cbn [fst snd RoundStatus.eqb andb].
    split.
    + unfold allSubmitted, getPoemsByRound in *.
      now rewrite updateRoundStatus_poems.
    + now rewrite (updateRoundStatus_getRound _ _ _ round Hround1).
Qed.

Lemma allSubmitted_iff_and_auto_judging_witness :
  allSubmitted 1 trioDrafted = false /\
  allSubmitted 1 (fst (run (postPoemSubmit 4000 2) trioDrafted)) = true /\
  option_map Round.status
             (getRound 1 (fst (run (postPoemSubmit 4000 2) trioDrafted)))
  = Some RoundStatus.judging.
Proof.
  split; [reflexivity|].
  refine (proj2 (proj2 (proj2 (proj2
            (allSubmitted_iff_and_auto_judging
               4000 2 trioDrafted
               (Poem.mk 2 1 3 (utf16 "a key of glass") false None)
               (Round.mk 1 1 1 1 (generateRandomWords firstIndex 5)
                         RoundStatus.writing 300 (Some 302000) None)))))
            eq_refl _ eq_refl eq_refl eq_refl _).
  - intros Hb. specialize (Hb 97 (or_introl eq_refl)). discriminate.
  - intros k p Hin Hk _. vm_compute in Hin.
    destruct Hin as [Hin | [Hin | []]]; inversion Hin; subst.
    + reflexivity.
    + congruence.
Defined.
